(** * Stock metadata generator: keyword, translation, vocabulary,
      record-store and thumbnail-cache logic of [main.py]

    The development embeds the pure and the state-passing parts of
    [main.py] and proves the properties its specification states about
    them.  Python [str] values are modelled as [string]s whose characters
    are the code points 0..255; Python [int]s are [Z]; Python lists are
    [list]s; the [set] of seen keywords is a [gset string]; dictionaries
    that are only looked up are [gmap]s, dictionaries whose insertion
    order reaches a file are association lists. *)

From Stdlib Require Import ZArith NArith Bool List Ascii String DecimalString Lia.
From stdpp Require Import base decidable option list gmap strings.
Import ListNotations.

Local Open Scope string_scope.
Local Open Scope list_scope.

(** ** Python string primitives *)

Module PyStr.

(** [str.lower] on one code point below 256: the ASCII capitals and the
    Latin-1 capitals U+00C0..U+00DE except the multiplication sign. *)
Definition lower_char (c : ascii) : ascii :=
  let n := N_of_ascii c in
  if ((65 <=? n) && (n <=? 90) ||
      (192 <=? n) && (n <=? 222) && negb (n =? 215))%N
  then ascii_of_N (n + 32) else c.

(** [str.isspace] on one code point below 256, the characters that
    [str.strip()] removes. *)
Definition is_space (c : ascii) : bool :=
  let n := N_of_ascii c in
  ((9 <=? n) && (n <=? 13) || (28 <=? n) && (n <=? 32) ||
   (n =? 133) || (n =? 160))%N.

Fixpoint lower (s : string) : string :=
  match s with
  | EmptyString => EmptyString
  | String c r => String (lower_char c) (lower r)
  end.

Definition is_empty (s : string) : bool :=
  match s with EmptyString => true | String _ _ => false end.

(** Truthiness of a [str]. *)
Definition truthy (s : string) : bool := negb (is_empty s).

Fixpoint lstrip (s : string) : string :=
  match s with
  | EmptyString => EmptyString
  | String c r => if is_space c then lstrip r else s
  end.

Fixpoint rstrip (s : string) : string :=
  match s with
  | EmptyString => EmptyString
  | String c r =>
      let r' := rstrip r in
      if is_space c && is_empty r' then EmptyString else String c r'
  end.

(** [s.strip()] *)
Definition strip (s : string) : string := rstrip (lstrip s).

(** [s.split(sep)] for a one-character separator: never returns the
    empty list. *)
Fixpoint split (sep : ascii) (s : string) : list string :=
  match s with
  | EmptyString => [EmptyString]
  | String c r =>
      if Ascii.eqb c sep then EmptyString :: split sep r
      else match split sep r with
           | [] => [String c EmptyString]
           | w :: ws => String c w :: ws
           end
  end.

(** [sep.join(ws)] *)
Fixpoint join (sep : string) (ws : list string) : string :=
  match ws with
  | [] => EmptyString
  | [w] => w
  | w :: ws' => w ++ sep ++ join sep ws'
  end.

(** [len(l)] as a Python integer. *)
Definition len {A} (l : list A) : Z := Z.of_nat (length l).

(** [l[:n]] for a non-negative constant [n]. *)
Definition take_to {A} (n : nat) (l : list A) : list A := firstn n l.

End PyStr.

Import PyStr.

(** ** Keyword padding *)

Module Keywords.

(** The entries of the lists are [str] values.  For a [str] the guard
    [k and k.strip()] is the truthiness of [k] and of [k.strip()], and
    [(k or empty)] is [k] itself. *)

(** The set comprehension
    [{k.strip().lower() for k in existing if k and k.strip()}]. *)
Fixpoint seen_of (existing : list string) : gset string :=
  match existing with
  | [] => ∅
  | k :: rest =>
      if truthy k && truthy (strip k)
      then {[ lower (strip k) ]} ∪ seen_of rest
      else seen_of rest
  end.

(** The [for k in candidates] loop with its [break] and [continue],
    threading [seen] and [out]. *)
Fixpoint fill_loop (max_count : Z) (seen : gset string) (out : list string)
    (candidates : list string) : list string :=
  match candidates with
  | [] => out
  | k :: rest =>
      if (len out >=? max_count)%Z then out
      else
        let t := strip k in
        if negb (truthy t) || bool_decide (lower t ∈ seen)
        then fill_loop max_count seen out rest
        else fill_loop max_count ({[ lower t ]} ∪ seen) (out ++ [t]) rest
  end.

Definition fill_keywords_to_max (existing : list string) (max_count : Z)
    (candidates : list string) : list string :=
  fill_loop max_count (seen_of existing) existing candidates.

End Keywords.

Import Keywords.

(** ** Errors *)

(** The exceptions the modelled code can raise. *)
Inductive exn : Type :=
  | HTTPError          (* requests: connection, status or timeout *)
  | KeyError
  | ValueError
  | CsvError
  | DecodeError        (* PIL cannot open or identify the file *)
  | OSError.

Inductive result (A : Type) : Type :=
  | Ok (a : A)
  | Raise (e : exn).
Arguments Ok {A} a.
Arguments Raise {A} e.

(** The error monad, through stdpp's [mbind] and its [x ← m; k]. *)
Global Instance result_bind : MBind result := fun A B k m =>
  match m with
  | Ok a => k a
  | Raise e => Raise e
  end.

(** ** Keyword generation *)

Module Generation.

Definition ADOBE_MAX : nat := 49.
Definition SHUTTER_MAX : nat := 50.
Definition ISTOCK_MAX : nat := 50.

Inductive platform : Type := adobe | shutterstock | istock.

Definition platform_max (p : platform) : nat :=
  match p with
  | adobe => ADOBE_MAX
  | shutterstock => SHUTTER_MAX
  | istock => ISTOCK_MAX
  end.

(** The character class of the [re.sub] in [api_keywords]: double and
    single quote, star, hyphen, newline, digit, full stop. *)
Definition is_noise (c : ascii) : bool :=
  let n := N_of_ascii c in
  ((n =? 34) || (n =? 39) || (n =? 42) || (n =? 45) || (n =? 10) ||
   (48 <=? n) && (n <=? 57) || (n =? 46))%N.

Fixpoint re_sub_noise (raw : string) : string :=
  match raw with
  | EmptyString => EmptyString
  | String c r =>
      if is_noise c then re_sub_noise r else String c (re_sub_noise r)
  end.

(** The list comprehension of [api_keywords]. *)
Definition parse_keywords (raw : string) : list string :=
  map strip
    (List.filter (fun k => truthy (strip k))
       (split ","%char (re_sub_noise raw))).

(** [api_keywords], given the outcome of its [groq_vision] call. *)
Definition api_keywords (response : result string) : result (list string) :=
  raw ← response;
  Ok (take_to 50 (parse_keywords raw)).

(** [map_istock] for the vocabulary that [load_istock] returns. *)
Definition map_istock (vocabulary : gmap string string)
    (kws : list string) : list string :=
  map (fun k => default k (vocabulary !! strip (lower k))) kws.

(** What the keyword part of [App._generate] receives from outside:
    the tagging credentials and outcome, and the outcome of each
    vision call in the order the code issues them. *)
Record services : Type := {
  ep_configured : bool;
  everypixels : result (list string);
  vision_adobe : result string;
  vision_adobe_pad : result string;
  vision_shutter : result string;
  vision_istock : result string;
  vocabulary : gmap string string
}.

(** Lines 832-841 of [App._generate]. *)
Definition generate_adobe (sv : services) : result (list string) :=
  base_kw ←
    (if ep_configured sv then
       match everypixels sv with
       | Ok kws => Ok kws
       | Raise _ => api_keywords (vision_adobe sv)
       end
     else api_keywords (vision_adobe sv));
  let adobe_en := take_to ADOBE_MAX base_kw in
  if (length adobe_en <? ADOBE_MAX)%nat then
    groq_kw ← api_keywords (vision_adobe_pad sv);
    Ok (fill_keywords_to_max adobe_en (Z.of_nat ADOBE_MAX) groq_kw)
  else Ok adobe_en.

(** Line 844. *)
Definition generate_shutter (sv : services) : result (list string) :=
  kws ← api_keywords (vision_shutter sv);
  Ok (take_to SHUTTER_MAX kws).

(** Line 847. *)
Definition generate_istock (sv : services) : result (list string) :=
  kws ← api_keywords (vision_istock sv);
  Ok (take_to ISTOCK_MAX kws).

(** Line 848: the vocabulary mapping of the iStock list. *)
Definition istock_mapped (sv : services) : result (list string) :=
  istock_raw ← generate_istock sv;
  Ok (map_istock (vocabulary sv) istock_raw).

Definition generate (sv : services) (p : platform) : result (list string) :=
  match p with
  | adobe => generate_adobe sv
  | shutterstock => generate_shutter sv
  | istock => generate_istock sv
  end.

End Generation.

(** ** Keyword translation *)

Module Translation.

(** [api_translate_kw]; [api_translate] stands for the call
    [api_translate(chunk, tr, key)], which raises when the request
    fails.  The bare [except] turns every failure into [kws]. *)
Definition api_translate_kw (api_translate : string → result string)
    (kws : list string) : list string :=
  let chunk := join ", " (take_to 50 kws) in
  match api_translate chunk with
  | Ok raw =>
      let parts := map strip (split ","%char raw) in
      firstn (length kws) (parts ++ kws)
  | Raise _ => kws
  end.

End Translation.

(** ** Python dictionaries whose order matters *)

Module PyDict.
Section dict.
Context {K V : Type} `{EqDecision K}.

(** [d.get(k)] *)
Fixpoint dict_get (k : K) (d : list (K * V)) : option V :=
  match d with
  | [] => None
  | (k', v) :: d' => if decide (k' = k) then Some v else dict_get k d'
  end.

(** [d[k] = v]: an existing key keeps its place, a new one goes last. *)
Fixpoint dict_set (k : K) (v : V) (d : list (K * V)) : list (K * V) :=
  match d with
  | [] => [(k, v)]
  | (k', v') :: d' =>
      if decide (k' = k) then (k', v) :: d'
      else (k', v') :: dict_set k v d'
  end.

(** [dict(pairs)] and the dictionary comprehensions. *)
Definition dict_of (kvs : list (K * V)) : list (K * V) :=
  fold_left (fun d kv => dict_set (fst kv) (snd kv) d) kvs [].

Definition dict_keys (d : list (K * V)) : list K := map fst d.
Definition dict_values (d : list (K * V)) : list V := map snd d.
End dict.
End PyDict.

Import PyDict.

(** ** The [csv] module, excel dialect

    [csv.writer] and [csv.reader] with the default dialect: delimiter
    comma, quote character the double quote, doubled quotes, minimal
    quoting, line terminator CR LF, no escape character, not strict.
    The reader is the state machine of CPython 3.11 and later, where
    every character of a line is data and the end of a line is a mark
    of its own; the states that need an escape character are left out.
    The field size limit is the module's default, which [main.py] never
    changes. *)

Module Csv.

Definition delimiter : ascii := ","%char.
Definition quotechar : ascii := "034"%char.
Definition CR : ascii := "013"%char.
Definition LF : ascii := "010"%char.
Definition lineterminator : string := String CR (String LF EmptyString).

Definition is_newline (c : ascii) : bool := Ascii.eqb c LF || Ascii.eqb c CR.

(** *** Writer *)

(** A character that makes [join_append_data] quote the field. *)
Definition special (c : ascii) : bool :=
  Ascii.eqb c delimiter || Ascii.eqb c quotechar || is_newline c.

Fixpoint needs_quote (field : string) : bool :=
  match field with
  | EmptyString => false
  | String c r => special c || needs_quote r
  end.

(** The field data as copied into the record: quotes doubled. *)
Fixpoint escape (field : string) : string :=
  match field with
  | EmptyString => EmptyString
  | String c r =>
      if Ascii.eqb c quotechar then String c (String c (escape r))
      else String c (escape r)
  end.

Definition quoted_text (field : string) : string :=
  String quotechar (escape field ++ String quotechar EmptyString).

Definition join_append (field : string) (quoted : bool) : string :=
  if quoted || needs_quote field then quoted_text field else field.

(** [None] is written as the empty field. *)
Definition field_text (v : option string) : string := default EmptyString v.

(** [writer.writerow(fields)]: the text appended to the file.  A record
    of one empty field is written as a quoted empty field. *)
Definition writerow (fields : list (option string)) : string :=
  let rec :=
    join (String delimiter EmptyString)
         (map (fun v => join_append (field_text v) false) fields) in
  (if (0 <? length fields)%nat && is_empty rec
   then quoted_text EmptyString else rec) ++ lineterminator.

(** *** Reader *)

Inductive parser_state : Type :=
  | START_RECORD | START_FIELD | IN_FIELD | IN_QUOTED_FIELD
  | QUOTE_IN_QUOTED_FIELD | EAT_CRNL.

Global Instance parser_state_eq_dec : EqDecision parser_state.
Proof. solve_decision. Defined.

Record reader : Type := {
  state : parser_state;
  fields : list string;      (* the fields saved for the current record *)
  field : string             (* the field being collected *)
}.

(** [parse_reset] *)
Definition parse_reset : reader :=
  {| state := START_RECORD; fields := []; field := EmptyString |}.

Definition set_state (st : parser_state) (r : reader) : reader :=
  {| state := st; fields := fields r; field := field r |}.

(** [csv.field_size_limit()] *)
Definition field_size_limit : Z := 131072.

(** [parse_add_char]: a field that has reached the limit takes no
    further character. *)
Definition add_char (c : ascii) (r : reader) : result reader :=
  if (field_size_limit <=? Z.of_nat (String.length (field r)))%Z
  then Raise CsvError
  else Ok {| state := state r; fields := fields r;
             field := field r ++ String c EmptyString |}.

(** [parse_save_field] *)
Definition save_field (r : reader) : reader :=
  {| state := state r; fields := fields r ++ [field r];
     field := EmptyString |}.

(** What [parse_process_char] is given: a character of the line, or the
    end-of-line mark that follows each line. *)
Inductive input : Type := Ch (c : ascii) | EOL.

Definition start_field (r : reader) (i : input) : result reader :=
  match i with
  | EOL => Ok (set_state START_RECORD (save_field r))
  | Ch c =>
      if is_newline c then Ok (set_state EAT_CRNL (save_field r))
      else if Ascii.eqb c quotechar then Ok (set_state IN_QUOTED_FIELD r)
      else if Ascii.eqb c delimiter
      then Ok (set_state START_FIELD (save_field r))
      else r' ← add_char c r; Ok (set_state IN_FIELD r')
  end.

(** [parse_process_char] *)
Definition parse_process_char (r : reader) (i : input) : result reader :=
  match state r with
  | START_RECORD =>
      match i with
      | EOL => Ok r
      | Ch c =>
          if is_newline c then Ok (set_state EAT_CRNL r)
          else start_field r i
      end
  | START_FIELD => start_field r i
  | IN_FIELD =>
      match i with
      | EOL => Ok (set_state START_RECORD (save_field r))
      | Ch c =>
          if is_newline c then Ok (set_state EAT_CRNL (save_field r))
          else if Ascii.eqb c delimiter
          then Ok (set_state START_FIELD (save_field r))
          else add_char c r
      end
  | IN_QUOTED_FIELD =>
      match i with
      | EOL => Ok r
      | Ch c =>
          if Ascii.eqb c quotechar then Ok (set_state QUOTE_IN_QUOTED_FIELD r)
          else add_char c r
      end
  | QUOTE_IN_QUOTED_FIELD =>
      match i with
      | EOL => Ok (set_state START_RECORD (save_field r))
      | Ch c =>
          if Ascii.eqb c quotechar
          then r' ← add_char c r; Ok (set_state IN_QUOTED_FIELD r')
          else if Ascii.eqb c delimiter
          then Ok (set_state START_FIELD (save_field r))
          else if is_newline c then Ok (set_state EAT_CRNL (save_field r))
          else r' ← add_char c r; Ok (set_state IN_FIELD r')
      end
  | EAT_CRNL =>
      match i with
      | EOL => Ok (set_state START_RECORD r)
      | Ch c => if is_newline c then Ok r else Raise CsvError
      end
  end.

(** The characters of one line, in order. *)
Fixpoint feed_line (r : reader) (line : string) : result reader :=
  match line with
  | EmptyString => Ok r
  | String c rest => r' ← parse_process_char r (Ch c); feed_line r' rest
  end.

(** End of input in [Reader_iternext]: a field under way, or an open
    quoted field, still makes a record. *)
Definition at_eof (r : reader) : list (list string) :=
  if negb (is_empty (field r)) || bool_decide (state r = IN_QUOTED_FIELD)
  then [fields (save_field r)] else [].

(** [list(reader)]: [Reader_iternext] until the lines are exhausted.
    A record is returned each time the state is back at
    [START_RECORD] after a line. *)
Fixpoint records (r : reader) (lines : list string)
    : result (list (list string)) :=
  match lines with
  | [] => Ok (at_eof r)
  | line :: rest =>
      r1 ← feed_line r line;
      r2 ← parse_process_char r1 EOL;
      if bool_decide (state r2 = START_RECORD)
      then rows ← records parse_reset rest; Ok (fields r2 :: rows)
      else records r2 rest
  end.

(** The lines a text file opened with [newline=''] yields: split after
    LF, CR LF or a lone CR, terminators kept. *)
Fixpoint file_lines (text : string) : list string :=
  match text with
  | EmptyString => []
  | String c rest =>
      if Ascii.eqb c LF then String c EmptyString :: file_lines rest
      else if Ascii.eqb c CR then
        match rest with
        | String c2 rest2 =>
            if Ascii.eqb c2 LF
            then String c (String c2 EmptyString) :: file_lines rest2
            else String c EmptyString :: file_lines rest
        | EmptyString => [String c EmptyString]
        end
      else
        match file_lines rest with
        | [] => [String c EmptyString]
        | line :: lines => String c line :: lines
        end
  end.

(** [list(csv.reader(f))] for a file with the given text. *)
Definition read_text (text : string) : result (list (list string)) :=
  records parse_reset (file_lines text).

End Csv.

(** ** The per-folder record table *)

Module RecordStore.

Definition CSV_H : list string :=
  ["file_path"; "file_name"; "created_at"; "title_en"; "title_tr";
   "description_en"; "description_tr";
   "adobe_keywords_en"; "adobe_keywords_tr";
   "shutter_keywords_en"; "shutter_keywords_tr";
   "istock_keywords_en"; "istock_keywords_tr"].

(** A row dictionary: string keys holding a [str] or [None], and under
    the key [None] (the [restkey] of [DictReader]) the surplus fields
    of a row longer than the header. *)
Record pyrow : Type := {
  cells : list (string * option string);
  extra : option (list string)
}.

(** The table in memory: [file_path] value to row, in insertion order. *)
Definition table : Type := list (option string * pyrow).

(** The files of the disk that matter: path to text. *)
Abbreviation disk := (gmap string string).

(** [os.path.join(folder, name)] for a relative [name]. *)
Fixpoint ends_with_slash (s : string) : bool :=
  match s with
  | EmptyString => false
  | String c EmptyString => Ascii.eqb c "/"%char
  | String _ r => ends_with_slash r
  end.

Definition path_join (a b : string) : string :=
  if is_empty a || ends_with_slash a then a ++ b else a ++ "/" ++ b.

Definition csv_path (folder : string) : string :=
  path_join folder "_metadata.csv".

(** [DictReader.__next__] on a row that is not blank. *)
Definition make_row (fieldnames row : list string) : pyrow :=
  let d := dict_of (combine fieldnames (map Some row)) in
  let lf := length fieldnames in
  let lr := length row in
  if (lf <? lr)%nat then {| cells := d; extra := Some (skipn lf row) |}
  else {| cells := fold_left (fun d key => dict_set key None d)
                             (skipn lr fieldnames) d;
          extra := None |}.

Definition is_blank (row : list string) : bool :=
  match row with [] => true | _ => false end.

(** [list(csv.DictReader(f))]: the first record is the header, blank
    records after it are skipped. *)
Definition dict_reader (rows : list (list string)) : list pyrow :=
  match rows with
  | [] => []
  | fieldnames :: body =>
      map (make_row fieldnames) (List.filter (fun r => negb (is_blank r)) body)
  end.

(** [{r[file_path]: r for r in reader}] *)
Fixpoint index_rows (db : table) (rows : list pyrow) : result table :=
  match rows with
  | [] => Ok db
  | r :: rest =>
      match dict_get "file_path" (cells r) with
      | None => Raise KeyError
      | Some key => index_rows (dict_set key r db) rest
      end
  end.

Definition load_db (fs : disk) (folder : string) : result table :=
  match fs !! csv_path folder with
  | None => Ok []
  | Some text =>
      rows ← Csv.read_text text;
      index_rows [] (dict_reader rows)
  end.

(** [DictWriter._dict_to_list] with [extrasaction='raise'] and
    [restval=''] *)
Definition dict_to_list (fieldnames : list string) (r : pyrow)
    : result (list (option string)) :=
  if bool_decide (extra r = None) &&
     forallb (fun k => bool_decide (k ∈ fieldnames)) (dict_keys (cells r))
  then Ok (map (fun key => default (Some EmptyString) (dict_get key (cells r)))
               fieldnames)
  else Raise ValueError.

(** [[w.writerow(r) for r in rows]] on a file whose text so far is
    [out]: what is written stays when a row raises. *)
Fixpoint write_rows (out : string) (rows : list pyrow)
    : string * result unit :=
  match rows with
  | [] => (out, Ok tt)
  | r :: rest =>
      match dict_to_list CSV_H r with
      | Ok fields => write_rows (out ++ Csv.writerow fields) rest
      | Raise e => (out, Raise e)
      end
  end.

(** [w.writeheader()] *)
Definition header_text : string := Csv.writerow (map Some CSV_H).

(** [save_db]: the disk afterwards and the outcome. *)
Definition save_db (fs : disk) (folder : string) (record : pyrow)
    : disk * result unit :=
  match load_db fs folder with
  | Raise e => (fs, Raise e)
  | Ok db =>
      match dict_get "file_path" (cells record) with
      | None => (fs, Raise KeyError)
      | Some key =>
          let db' := dict_set key record db in
          let '(text, outcome) := write_rows header_text (dict_values db') in
          (<[csv_path folder := text]> fs, outcome)
      end
  end.

End RecordStore.

(** ** Thumbnails and their disk cache *)

Module Thumbs.

Definition color : Type := string.
Definition BG : color := "#0e1117".

Definition VIDEO_EXTS : list string :=
  [".mp4"; ".mov"; ".avi"; ".mkv"; ".m4v"; ".wmv"].

(** An RGB picture: its size, of which neither side is ever negative,
    and the colour at each position. *)
Record image : Type := {
  width : Z;
  height : Z;
  pixel : Z → Z → color;
  width_ok : (0 <=? width)%Z = true;
  height_ok : (0 <=? height)%Z = true
}.

(** [Image.new(RGB, (w, h), fill)]: [ValueError] for a negative width
    or height. *)
Definition Image_new (w h : Z) (fill : color) : result image :=
  match decide ((0 <=? w)%Z = true), decide ((0 <=? h)%Z = true) with
  | left Hw, left Hh =>
      Ok {| width := w; height := h; pixel := fun _ _ => fill;
            width_ok := Hw; height_ok := Hh |}
  | _, _ => Raise ValueError
  end.

(** [canvas.paste(img, (x0, y0))] *)
Definition paste (canvas img : image) (x0 y0 : Z) : image :=
  {| width := width canvas;
     height := height canvas;
     pixel := fun x y =>
       if ((x0 <=? x) && (x <? x0 + width img) &&
           (y0 <=? y) && (y <? y0 + height img))%Z
       then pixel img (x - x0) (y - y0)
       else pixel canvas x y;
     width_ok := width_ok canvas;
     height_ok := height_ok canvas |}.

(** What [get_thumb] obtains from libraries and files. *)
Record world : Type := {
  md5_hexdigest : string → string;
  (** [Image.open(file_path).convert(RGB)] *)
  image_open : string → result image;
  (** [cap.read()]: the frame when [ret] is true *)
  video_read : string → option image;
  (** the resampling of [Image.thumbnail] when the picture is larger
      than the box, or the exception it raises *)
  resample : image → Z → Z → result image;
  (** whether [canvas.save] can write the cache file of a key *)
  cache_writable : string → bool
}.

(** [str(n)] of an integer. *)
Definition str_of_Z (n : Z) : string := NilZero.string_of_int (Z.to_int n).

(** [Path(p).name] on a POSIX path: the last of the components between
    slashes that is neither empty nor a single full stop, and the empty
    string when there is none. *)
Definition name (p : string) : string :=
  default EmptyString
    (last (List.filter (fun x => negb (is_empty x) && negb (String.eqb x "."))
                       (split "/"%char p))).

(** The part of [s] from its last full stop on, if it has one. *)
Fixpoint from_last_dot (s : string) : option string :=
  match s with
  | EmptyString => None
  | String c r =>
      match from_last_dot r with
      | Some x => Some x
      | None => if Ascii.eqb c "."%char then Some s else None
      end
  end.

(** [Path(p).suffix]: from the last full stop of the name, unless that
    is the first or the last character of the name. *)
Definition suffix (p : string) : string :=
  match name p with
  | EmptyString => EmptyString
  | String _ r =>
      match from_last_dot r with
      | Some sfx => if (1 <? String.length sfx)%nat then sfx else EmptyString
      | None => EmptyString
      end
  end.

(** [img.thumbnail((w, h))]: a picture that fits is left as it is. *)
Definition thumbnail (wd : world) (img : image) (w h : Z) : result image :=
  if ((w >=? width img) && (h >=? height img))%Z then Ok img
  else resample wd img w h.

(** The cache key of [get_thumb]. *)
Definition cache_key (wd : world) (file_path : string) (w h : Z) : string :=
  md5_hexdigest wd (file_path ++ str_of_Z w ++ str_of_Z h).

(** [get_thumb] with the disk cache [ch]: key to the canvas saved
    under it.  The canvas and the cache afterwards. *)
Definition get_thumb (wd : world) (ch : gmap string image)
    (file_path : string) (w h : Z) : result (image * gmap string image) :=
  let key := cache_key wd file_path w h in
  match ch !! key with
  | Some cached => Ok (cached, ch)
  | None =>
      let ext := lower (suffix file_path) in
      img ← (if bool_decide (ext ∈ VIDEO_EXTS) then
               match video_read wd file_path with
               | Some frame => Ok frame
               | None => Image_new w h BG
               end
             else image_open wd file_path);
      img ← thumbnail wd img w h;
      ground ← Image_new w h BG;
      let canvas :=
        paste ground img ((w - width img) / 2) ((h - height img) / 2) in
      if cache_writable wd key
      then Ok (canvas, <[key := canvas]> ch)
      else Raise OSError
  end.

End Thumbs.

(** ** The keyword entries and columns of the window *)

Module Fields.

(** [[e.get().strip() for e in entries if e.get().strip()]] of [gkw] and
    [_copy_kw], on the texts of the entries. *)
Definition gkw (entries : list string) : list string :=
  map strip (List.filter (fun e => truthy (strip e)) entries).

(** [, .join(words)] of [_build_rec] and [_copy_kw]. *)
Definition kw_join (words : list string) : string := join ", " words.

(** [kw_split] of [_load_record], on the text of the column. *)
Definition kw_split (column : string) : list string :=
  map strip (List.filter (fun x => truthy (strip x)) (split ","%char column)).

(** The rows of [_fill_kw]: the texts put in the English and the Turkish
    entries. *)
Definition fill_kw (kw_en kw_tr : list string) (max_kw : nat)
    : list string * list string :=
  let count := Nat.min (Nat.max (length kw_en) (length kw_tr)) max_kw in
  (map (fun i => nth i kw_en EmptyString) (seq 0 count),
   map (fun i => nth i kw_tr EmptyString) (seq 0 count)).

End Fields.

(** ** Edits of the vocabulary *)

Module VocabularyEdit.

(** [_add] of the vocabulary dialog: both texts trimmed, stored under
    the lowercase general term when neither is empty. *)
Definition istock_add (d : gmap string string) (general istock : string)
    : gmap string string :=
  let g := strip general in
  let i := strip istock in
  if truthy g && truthy i then <[lower g := i]> d else d.

(** [_del] of the vocabulary dialog: [d.pop(g.lower(), None)]. *)
Definition istock_del (d : gmap string string) (gen : string)
    : gmap string string :=
  delete (lower gen) d.

(** [_apply_istock] on the texts of the English iStock entries. *)
Definition apply_istock (d : gmap string string) (entries : list string)
    : list string :=
  map (fun e =>
         let k := lower (strip e) in
         match d !! k with
         | Some v => v
         | None => e
         end) entries.

End VocabularyEdit.

(** ** Wheel events and file names in the list *)

Module Interface.

(** The part of a wheel event that [_on_global_scroll] reads. *)
Record wheel_event : Type := {
  event_delta : Z;
  event_num : Z
}.

(** The units [_on_global_scroll] scrolls by. *)
Definition scroll_delta (event : wheel_event) : Z :=
  if negb (event_delta event =? 0)%Z then
    let step := (event_delta event / 120)%Z in
    if negb (step =? 0)%Z then (-1 * step)%Z
    else if (event_delta event >? 0)%Z then (-1)%Z else 1%Z
  else if (event_num event =? 4)%Z then (-1)%Z
  else if (event_num event =? 5)%Z then 1%Z
  else 0%Z.

(** [name[:n]] *)
Fixpoint str_take (n : nat) (s : string) : string :=
  match n, s with
  | S n', String c r => String c (str_take n' r)
  | _, _ => EmptyString
  end.

(** The file name as [_add_row] shows it. *)
Definition display_name (name : string) : string :=
  if (String.length name <=? 28)%nat then name
  else str_take 25 name ++ "...".

End Interface.

(** ** Title and description response *)

Module Metadata.

(** The part of [s] from the first [c] on. *)
Fixpoint from_first (c : ascii) (s : string) : option string :=
  match s with
  | EmptyString => None
  | String c' r => if Ascii.eqb c' c then Some s else from_first c r
  end.

(** The part of [s] up to and with the last [c]. *)
Fixpoint upto_last (c : ascii) (s : string) : option string :=
  match s with
  | EmptyString => None
  | String c' r =>
      match upto_last c r with
      | Some m => Some (String c' m)
      | None => if Ascii.eqb c' c then Some (String c' EmptyString) else None
      end
  end.

(** [re.search] of an opening brace, anything, a closing brace, with
    [re.DOTALL]: from the first opening brace to the last closing brace
    after it. *)
Definition search_braces (raw : string) : option string :=
  match from_first "{"%char raw with
  | Some m => upto_last "}"%char m
  | None => None
  end.

(** [api_metadata], given the outcome of its [groq_vision] call and
    [json.loads]. *)
Definition api_metadata {J : Type} (json_loads : string → result J)
    (response : result string) : result J :=
  raw ← response;
  match search_braces raw with
  | Some m => json_loads m
  | None => Raise ValueError
  end.

End Metadata.


(** * Specification vocabulary

    The predicates in which the properties are stated, and the sample
    inputs of the worked cases. *)

Import Generation Translation Csv RecordStore Thumbs.

(** ** Keywords *)

(** No two entries equal under case-insensitive comparison. *)
Definition ci_distinct (l : list string) : Prop := NoDup (map lower l).

Global Instance ci_distinct_dec l : Decision (ci_distinct l).
Proof. unfold ci_distinct. apply _. Defined.

(** What the loop maintains: the output has no case-insensitive
    duplicate, and [seen] holds the key of each non-blank entry. *)
Definition padding_inv (seen : gset string) (out : list string) : Prop :=
  ci_distinct out ∧
  ∀ e, e ∈ out → strip e ≠ EmptyString → lower (strip e) ∈ seen.

(** The terms a vision response parses to have no case-insensitive
    duplicate. *)
Definition response_distinct (response : result string) : Prop :=
  ∀ raw, response = Ok raw → ci_distinct (parse_keywords raw).

(** The lists that generation for a platform starts from have no
    case-insensitive duplicate. *)
Definition base_distinct (sv : services) (p : platform) : Prop :=
  match p with
  | adobe =>
      (∀ tags, everypixels sv = Ok tags → ci_distinct tags) ∧
      response_distinct (vision_adobe sv)
  | shutterstock => response_distinct (vision_shutter sv)
  | istock => response_distinct (vision_istock sv)
  end.

(** Services whose every vision response is the same line. *)
Definition answering (line : string) : services :=
  {| ep_configured := false; everypixels := Raise HTTPError;
     vision_adobe := Ok line; vision_adobe_pad := Ok line;
     vision_shutter := Ok line; vision_istock := Ok line;
     vocabulary := ∅ |}.

(** ** Vocabulary *)

(** No replacement term is looked up to a different term. *)
Definition settled (vocabulary : gmap string string) : Prop :=
  ∀ k v, vocabulary !! k = Some v →
         default v (vocabulary !! strip (lower v)) = v.

(** ** Thumbnails *)

(** The asset is a video by its extension. *)
Definition is_video (file_path : string) : Prop :=
  lower (suffix file_path) ∈ VIDEO_EXTS.




(** A white picture of one pixel. *)
Definition white_dot : image :=
  {| width := 1; height := 1; pixel := fun _ _ => "#ffffff";
     width_ok := eq_refl; height_ok := eq_refl |}.

(** A world in which every picture decodes to a one-pixel white image. *)
Definition white_pixel : world :=
  {| md5_hexdigest := fun s => s;
     image_open := fun _ => Ok white_dot;
     video_read := fun _ => None;
     resample := fun img _ _ => Ok img;
     cache_writable := fun _ => true |}.


(** ** Reading a text line by line *)

(** What follows the characters of a line: the end-of-line mark, and a
    record when the parser is back at the start of one. *)
Definition end_line (r : reader) (lines : list string)
    : result (list (list string)) :=
  r2 ← parse_process_char r EOL;
  if bool_decide (state r2 = START_RECORD)
  then rows ← records parse_reset lines; Ok (fields r2 :: rows)
  else records r2 lines.

(** Reading a text from the start of a line. *)
Definition from_line_start (r : reader) (text : string)
    : result (list (list string)) :=
  records r (file_lines text).

(** Reading the rest of a text from inside a line. *)
Definition from_inside (r : reader) (text : string)
    : result (list (list string)) :=
  match file_lines text with
  | [] => end_line r []
  | line :: lines => r1 ← feed_line r line; end_line r1 lines
  end.

(** The parser is about to start a field. *)
Definition fresh (st : parser_state) : Prop :=
  st = START_FIELD ∨ st = START_RECORD.

(** A field as [writerow] encodes it. *)
Definition encode (v : option string) : string :=
  join_append (field_text v) false.

Definition comma : string := String delimiter EmptyString.

(** The text of a list of written records. *)
Fixpoint rows_text (rows : list (list (option string))) : string :=
  match rows with
  | [] => EmptyString
  | vs :: rest => writerow vs +:+ rows_text rest
  end.

(** A field that the reader takes: no longer than the field size
    limit. *)
Definition within_limit (f : string) : Prop :=
  (Z.of_nat (String.length f) ≤ field_size_limit)%Z.

Global Instance within_limit_dec f : Decision (within_limit f).
Proof. unfold within_limit. apply _. Defined.

(** A written record whose fields are all within the limit. *)
Definition row_within (vs : list (option string)) : Prop :=
  Forall (fun v => within_limit (field_text v)) vs.

(** The field under way and the fields saved are within the limit. *)
Definition reader_within (r : reader) : Prop :=
  within_limit (field r) ∧ Forall within_limit (fields r).

(** ** The record table *)

(** A row that conforms to the record schema: exactly the thirteen
    columns of [CSV_H], each holding a [str]. *)
Definition conforms (r : pyrow) : Prop :=
  extra r = None ∧
  NoDup (dict_keys (cells r)) ∧
  Forall (fun k => k ∈ CSV_H) (dict_keys (cells r)) ∧
  Forall (fun k => k ∈ dict_keys (cells r)) CSV_H ∧
  Forall (fun kv => is_Some (snd kv)) (cells r).

Global Instance conforms_dec r : Decision (conforms r).
Proof. unfold conforms. apply _. Defined.

(** A row whose columns all have at most [field_size_limit]
    characters. *)
Definition fits (r : pyrow) : Prop :=
  Forall (fun kv => within_limit (field_text (snd kv))) (cells r).

Global Instance fits_dec r : Decision (fits r).
Proof. unfold fits. apply _. Defined.

(** Equality of row dictionaries: the same keys with the same values,
    whatever the order of the keys. *)
Definition row_equiv (r1 r2 : pyrow) : Prop :=
  extra r1 = extra r2 ∧ ∀ k, dict_get k (cells r1) = dict_get k (cells r2).

(** The key of a row in the table: the value of its [file_path]. *)
Definition file_path_of (r : pyrow) : option string :=
  default None (dict_get "file_path" (cells r)).

(** The fields written for a row, and the row read back from them. *)
Definition fields_of (r : pyrow) : list (option string) :=
  map (fun key => default (Some EmptyString) (dict_get key (cells r))) CSV_H.

Definition reread (r : pyrow) : pyrow :=
  make_row CSV_H (map field_text (fields_of r)).

Definition reread_entry (kr : option string * pyrow) : option string * pyrow :=
  (fst kr, reread (snd kr)).

Definition set_entry (d : table) (kr : option string * pyrow) : table :=
  dict_set (fst kr) (snd kr) d.

(** The table of a folder loads, and its rows conform to the schema:
    the folder has no table yet, or one that holds records. *)
Definition store_ok (fs : gmap string string) (folder : string) : Prop :=
  ∃ db, load_db fs folder = Ok db ∧ Forall (fun kr => conforms (snd kr)) db.

(** Each row sits under its own [file_path]. *)
Definition keyed (db : table) : Prop :=
  NoDup (dict_keys db) ∧
  Forall (fun kr => dict_get "file_path" (cells (snd kr)) = Some (fst kr)) db.

(** A record as [_build_rec] makes it, columns in schema order. *)
Definition sample_record (path name title keywords : string) : pyrow :=
  {| cells :=
       [("file_path", Some path); ("file_name", Some name);
        ("created_at", Some "2024-05-01 10:30");
        ("title_en", Some title); ("title_tr", Some title);
        ("description_en", Some title); ("description_tr", Some title);
        ("adobe_keywords_en", Some keywords);
        ("adobe_keywords_tr", Some keywords);
        ("shutter_keywords_en", Some keywords);
        ("shutter_keywords_tr", Some keywords);
        ("istock_keywords_en", Some keywords);
        ("istock_keywords_tr", Some keywords)];
     extra := None |}.

Definition record_A : pyrow :=
  sample_record "/f/1.jpg" "1.jpg" "Sunset over the sea" "sunset, beach, sea".

Definition record_B : pyrow :=
  sample_record "/f/2.jpg" "2.jpg" "Dog, running" "dog, park".



(** A table of two records, the second with quotes, a comma and a line
    break in its title. *)
Definition quoted_title : string :=
  String quotechar ("Dog" +:+ String quotechar (", running" +:+
    String CR (String LF "in the park"))).

Definition quoted_table : table :=
  [(Some "/f/1.jpg", record_A);
   (Some "/f/2.jpg",
    sample_record "/f/2.jpg" "2.jpg" quoted_title "dog, park")].

(** A table written by another tool, with a fourteenth field in its
    row. *)
Definition foreign_table : string :=
  header_text +:+
  writerow (map Some ["/f/0.jpg"; "0.jpg"; "t"; "a"; "b"; "c"; "d"; "e";
                      "f"; "g"; "h"; "i"; "j"; "surplus"]).

(** ** Keyword columns *)

Import Fields VocabularyEdit Interface Metadata.

(** The character occurs in the text. *)
Fixpoint contains (c : ascii) (s : string) : bool :=
  match s with
  | EmptyString => false
  | String c' r => Ascii.eqb c' c || contains c r
  end.

(** A keyword as the record columns can hold it: not empty, trimmed,
    without a comma. *)
Definition storable (k : string) : Prop :=
  k ≠ EmptyString ∧ strip k = k ∧ contains ","%char k = false.

Global Instance storable_dec k : Decision (storable k).
Proof. unfold storable. apply _. Defined.

(** ** Tables with foreign rows *)


(** The text of the table written for [db]. *)
Definition table_text (db : table) : string :=
  header_text +:+ rows_text (map fields_of (dict_values db)).

(** A record without the [file_path] column, and one with a column that
    is not in the schema. *)
Definition record_without_path : pyrow :=
  {| cells := [("title_en", Some "Sunset")]; extra := None |}.


(** [json.loads] for the worked cases: the text itself. *)
Definition loads_text (text : string) : result string := Ok text.

(** * Properties *)

(** ** Strings *)

Section string_facts.

Lemma lower_char_space c : is_space (lower_char c) = is_space c.
Proof. destruct c as [[] [] [] [] [] [] [] []]; reflexivity. Qed.

Lemma is_empty_true s : is_empty s = true ↔ s = EmptyString.
Proof. destruct s; simpl; split; congruence. Qed.

Lemma truthy_true s : truthy s = true ↔ s ≠ EmptyString.
Proof. destruct s; unfold truthy; simpl; split; intros; done. Qed.

Lemma lower_is_empty s : is_empty (lower s) = is_empty s.
Proof. destruct s; reflexivity. Qed.

Lemma lower_nonempty s : s ≠ EmptyString → lower s ≠ EmptyString.
Proof. destruct s; simpl; congruence. Qed.

Lemma lstrip_lower s : lstrip (lower s) = lower (lstrip s).
Proof.
  induction s as [|c r IH]; simpl; [reflexivity|].
  rewrite lower_char_space. destruct (is_space c); [exact IH|reflexivity].
Qed.

Lemma rstrip_lower s : rstrip (lower s) = lower (rstrip s).
Proof.
  induction s as [|c r IH]; simpl; [reflexivity|].
  rewrite lower_char_space, IH, lower_is_empty.
  destruct (is_space c && is_empty (rstrip r)); reflexivity.
Qed.

Lemma strip_lower s : strip (lower s) = lower (strip s).
Proof. unfold strip. rewrite lstrip_lower. apply rstrip_lower. Qed.

Lemma lstrip_idem s : lstrip (lstrip s) = lstrip s.
Proof.
  induction s as [|c r IH]; simpl; [reflexivity|].
  destruct (is_space c) eqn:E; [exact IH|]. simpl. rewrite E. reflexivity.
Qed.

Lemma rstrip_idem s : rstrip (rstrip s) = rstrip s.
Proof.
  induction s as [|c r IH]; simpl; [reflexivity|].
  destruct (is_space c && is_empty (rstrip r)) eqn:E; [reflexivity|].
  simpl. rewrite IH, E. reflexivity.
Qed.

Lemma lstrip_rstrip s : lstrip (rstrip s) = rstrip (lstrip s).
Proof.
  induction s as [|c r IH]; simpl; [reflexivity|].
  destruct (is_space c) eqn:Hc; simpl.
  - destruct (is_empty (rstrip r)) eqn:He; simpl.
    + apply is_empty_true in He. rewrite <- IH, He. reflexivity.
    + rewrite Hc. exact IH.
  - rewrite Hc. reflexivity.
Qed.

Lemma strip_idem s : strip (strip s) = strip s.
Proof.
  unfold strip.
  rewrite lstrip_rstrip, lstrip_idem, rstrip_idem. reflexivity.
Qed.

End string_facts.

Lemma ci_distinct_firstn n l : ci_distinct l → ci_distinct (firstn n l).
Proof.
  unfold ci_distinct. rewrite <- firstn_map.
  intros Hl. eapply sublist_NoDup; [exact Hl|apply sublist_take].
Qed.

(** ** Padding *)

Section padding.

Lemma len_app {A} (l : list A) x : len (l ++ [x]) = (len l + 1)%Z.
Proof. unfold len. rewrite length_app. simpl. lia. Qed.

Lemma fill_loop_length max_count seen out candidates :
  (len (fill_loop max_count seen out candidates)
   ≤ Z.max (len out) max_count)%Z.
Proof.
  revert seen out.
  induction candidates as [|k rest IH]; intros seen out; simpl; [lia|].
  destruct (len out >=? max_count)%Z eqn:Hfull; [lia|].
  rewrite Z.geb_leb in Hfull. apply Z.leb_gt in Hfull.
  destruct (negb (truthy (strip k)) || bool_decide (lower (strip k) ∈ seen)).
  - apply IH.
  - etrans; [apply IH|]. rewrite len_app. lia.
Qed.

(** The existing entries stay, in order, in front of what is appended. *)
Lemma fill_loop_prefix max_count seen out candidates :
  ∃ added, fill_loop max_count seen out candidates = out ++ added.
Proof.
  revert seen out.
  induction candidates as [|k rest IH]; intros seen out; simpl.
  - exists []. by rewrite app_nil_r.
  - destruct (len out >=? max_count)%Z.
    { exists []. by rewrite app_nil_r. }
    destruct (negb (truthy (strip k)) || bool_decide (lower (strip k) ∈ seen)).
    + apply IH.
    + destruct (IH ({[lower (strip k)]} ∪ seen) (out ++ [strip k]))
        as [added ->].
      exists (strip k :: added). by rewrite <- app_assoc.
Qed.

Lemma seen_of_spec existing e :
  e ∈ existing → strip e ≠ EmptyString → lower (strip e) ∈ seen_of existing.
Proof.
  intros Hin Hne. induction existing as [|k rest IH]; [by inversion Hin|].
  simpl. apply elem_of_cons in Hin as [<-|Hin].
  - assert (truthy e && truthy (strip e) = true) as ->; [|set_solver].
    apply andb_true_iff. split; apply truthy_true; [|done].
    intros ->. by apply Hne.
  - destruct (truthy k && truthy (strip k)); [set_solver|auto].
Qed.

Lemma padding_inv_step seen out k :
  padding_inv seen out →
  truthy (strip k) = true → lower (strip k) ∉ seen →
  padding_inv ({[lower (strip k)]} ∪ seen) (out ++ [strip k]).
Proof.
  intros [Hnd Hseen] Hk Hnew. apply truthy_true in Hk. split.
  - unfold ci_distinct in *. rewrite map_app. simpl.
    apply NoDup_app. split; [done|]. split; [|apply NoDup_singleton].
    intros x Hx Hx'. apply list_elem_of_singleton in Hx'. subst x.
    apply list_elem_of_fmap in Hx as (e & Heq & He).
    apply Hnew.
    assert (lower (strip e) = lower (strip k)) as Hkey.
    { rewrite <- strip_lower, <- Heq, strip_lower, strip_idem. reflexivity. }
    rewrite <- Hkey. apply Hseen; [done|].
    intros He0. rewrite He0 in Hkey. simpl in Hkey.
    by apply (lower_nonempty (strip k)).
  - intros e He Hne. apply elem_of_app in He as [He|He].
    + apply elem_of_union_r. by apply Hseen.
    + apply list_elem_of_singleton in He. subst e.
      rewrite strip_idem. set_solver.
Qed.

Lemma fill_loop_inv max_count seen out candidates :
  padding_inv seen out →
  ci_distinct (fill_loop max_count seen out candidates).
Proof.
  revert seen out.
  induction candidates as [|k rest IH]; intros seen out Hinv; simpl.
  - apply Hinv.
  - destruct (len out >=? max_count)%Z; [apply Hinv|].
    destruct (truthy (strip k)) eqn:Hk; simpl; [|by apply IH].
    case_bool_decide as Hin; [by apply IH|].
    apply IH. by apply padding_inv_step.
Qed.

Lemma fill_keywords_length existing max_count candidates :
  (len (fill_keywords_to_max existing max_count candidates)
   ≤ Z.max (len existing) max_count)%Z.
Proof. apply fill_loop_length. Qed.

Lemma fill_keywords_distinct existing max_count candidates :
  ci_distinct existing →
  ci_distinct (fill_keywords_to_max existing max_count candidates).
Proof.
  intros Hd. apply fill_loop_inv. split; [done|].
  intros e He Hne. by apply seen_of_spec.
Qed.

End padding.

(** C1: the claim as stated fails.  A list already longer than
    [max_count] is returned as it is: three entries for a cap of two. *)
Lemma fill_length_exceeds_max :
  let out := fill_keywords_to_max ["a"; "b"; "c"] 2 ["d"] in
  out = ["a"; "b"; "c"] ∧ ¬ (len out ≤ 2)%Z.
Proof. vm_compute. split; [reflexivity|]. intros H. by apply H. Qed.

(** C1, as the code has it: padding only appends, so the result is never
    longer than the larger of [len(existing)] and [max_count]; a list
    within the cap stays within the cap. *)
Theorem fill_length_bound existing max_count candidates :
  (len (fill_keywords_to_max existing max_count candidates)
   ≤ Z.max (len existing) max_count)%Z.
Proof. apply fill_keywords_length. Qed.

(** C2: the claim as stated fails: the spec's own scenario keeps both
    [Sunset] and [sunset], because the existing entries are copied
    without deduplication. *)
Lemma fill_keeps_existing_duplicates :
  let out := fill_keywords_to_max ["Sunset"; "sunset"; "Beach"] 5
                                  ["beach"; "Mountain"; "Mountain"] in
  out = ["Sunset"; "sunset"; "Beach"; "Mountain"] ∧
  out ≠ ["Sunset"; "Beach"; "Mountain"] ∧
  ¬ ci_distinct out.
Proof.
  split; [vm_compute; reflexivity|]. split; [vm_compute; congruence|].
  apply (bool_decide_eq_false_1 (ci_distinct _)). vm_compute. reflexivity.
Qed.

(** C2, as the code has it: padding never introduces a duplicate.  When
    no two existing entries are equal case-insensitively, no two entries
    of the result are. *)
Theorem fill_preserves_ci_distinct existing max_count candidates :
  ci_distinct existing →
  ci_distinct (fill_keywords_to_max existing max_count candidates).
Proof. apply fill_keywords_distinct. Qed.

Lemma fill_preserves_ci_distinct_witness :
  ci_distinct ["Sunset"; "Beach"] ∧
  ci_distinct (fill_keywords_to_max ["Sunset"; "Beach"] 5
                                    ["beach"; "Mountain"; "Mountain"]).
Proof.
  assert (ci_distinct ["Sunset"; "Beach"]) as H.
  { apply (bool_decide_eq_true_1 (ci_distinct _)). vm_compute. reflexivity. }
  split; [exact H|]. apply (fill_preserves_ci_distinct _ 5 _ H).
Defined.

(** ** The error monad *)

Lemma bind_Ok {A B} (m : result A) (k : A → result B) b :
  (x ← m; k x) = Ok b → ∃ a, m = Ok a ∧ k a = Ok b.
Proof. destruct m as [a|e]; simpl; [eauto|discriminate]. Qed.

(** ** Translation of a keyword list *)

Section translation.
Variable api_translate : string → result string.

Lemma api_translate_kw_length kws :
  length (api_translate_kw api_translate kws) = length kws.
Proof.
  unfold api_translate_kw.
  destruct (api_translate _); [|reflexivity].
  rewrite length_firstn, length_app. lia.
Qed.

Lemma api_translate_kw_failure kws e :
  api_translate (join ", " (take_to 50 kws)) = Raise e →
  api_translate_kw api_translate kws = kws.
Proof. unfold api_translate_kw. intros ->. reflexivity. Qed.

(** Position [i] holds the [i]-th part of the response when there is
    one. *)
Lemma api_translate_kw_part kws raw i :
  api_translate (join ", " (take_to 50 kws)) = Ok raw →
  (i < length kws)%nat →
  (i < length (split ","%char raw))%nat →
  api_translate_kw api_translate kws !! i
  = strip <$> split ","%char raw !! i.
Proof.
  unfold api_translate_kw. intros -> Hi Hp.
  rewrite lookup_take_lt by done.
  rewrite lookup_app_l by (by rewrite length_map).
  apply list_lookup_fmap.
Qed.

(** Past the parts of the response the list is filled with the source
    words from the first one on, not with the word of that position. *)
Lemma api_translate_kw_fill kws raw i :
  api_translate (join ", " (take_to 50 kws)) = Ok raw →
  (i < length kws)%nat →
  (length (split ","%char raw) ≤ i)%nat →
  api_translate_kw api_translate kws !! i
  = kws !! (i - length (split ","%char raw))%nat.
Proof.
  unfold api_translate_kw. intros -> Hi Hp.
  rewrite lookup_take_lt by done.
  rewrite lookup_app_r by (by rewrite length_map).
  by rewrite length_map.
Qed.

End translation.

Example translate_unreachable :
  api_translate_kw (fun _ => Raise HTTPError) ["alpha"; "beta"]
  = ["alpha"; "beta"].
Proof. reflexivity. Qed.

(** C3: the length is [len(words)] and a failed request returns [words],
    but the fallback is not the corresponding source word.  With a
    response of one part for three words, positions 1 and 2 hold
    [words[0]] and [words[1]] where the claim has [words[1]] and
    [words[2]]. *)
Theorem translate_fallback_misaligned :
  let words := ["red"; "green"; "blue"] in
  let out := api_translate_kw (fun _ => Ok "kirmizi") words in
  out = ["kirmizi"; "red"; "green"] ∧
  out !! 1%nat = words !! 0%nat ∧ out !! 1%nat ≠ words !! 1%nat ∧
  out !! 2%nat = words !! 1%nat ∧ out !! 2%nat ≠ words !! 2%nat.
Proof. vm_compute. repeat split; congruence. Qed.

(** ** Keyword generation *)

Section generation.

Lemma api_keywords_Ok response kws :
  api_keywords response = Ok kws →
  ∃ raw, response = Ok raw ∧ kws = firstn 50 (parse_keywords raw).
Proof.
  unfold api_keywords. intros (raw & -> & Heq)%bind_Ok.
  exists raw. split; [reflexivity|]. unfold take_to in Heq. congruence.
Qed.

Lemma api_keywords_length response kws :
  api_keywords response = Ok kws → (length kws ≤ 50)%nat.
Proof.
  intros (raw & _ & ->)%api_keywords_Ok. apply firstn_le_length.
Qed.

Lemma map_istock_length vocabulary kws :
  length (map_istock vocabulary kws) = length kws.
Proof. apply length_map. Qed.

(** The base list of the adobe platform: the tagging result when it
    is configured and succeeds, the first vision response otherwise. *)
Lemma generate_adobe_Ok sv kws :
  generate_adobe sv = Ok kws →
  ∃ base_kw,
    (everypixels sv = Ok base_kw ∨
     api_keywords (vision_adobe sv) = Ok base_kw) ∧
    (kws = firstn ADOBE_MAX base_kw ∨
     ∃ groq_kw,
       (length (firstn ADOBE_MAX base_kw) < ADOBE_MAX)%nat ∧
       kws = fill_keywords_to_max (firstn ADOBE_MAX base_kw)
                                  (Z.of_nat ADOBE_MAX) groq_kw).
Proof.
  unfold generate_adobe. intros (base_kw & Hbase & Hrest)%bind_Ok.
  exists base_kw. split.
  - destruct (ep_configured sv); [|by right].
    destruct (everypixels sv); [left; congruence|by right].
  - unfold take_to in Hrest.
    destruct (length (firstn ADOBE_MAX base_kw) <? ADOBE_MAX)%nat eqn:Hlt.
    + apply bind_Ok in Hrest as (groq_kw & _ & Heq).
      right. exists groq_kw. split; [by apply Nat.ltb_lt|congruence].
    + left. congruence.
Qed.

Lemma generate_istock_length sv kws :
  generate_istock sv = Ok kws → (length kws ≤ ISTOCK_MAX)%nat.
Proof.
  unfold generate_istock, take_to. intros (l & _ & Heq)%bind_Ok.
  assert (kws = firstn ISTOCK_MAX l) as -> by congruence.
  apply firstn_le_length.
Qed.

(** The mapped iStock list has the length of the unmapped one. *)
Lemma istock_mapped_length sv kws :
  istock_mapped sv = Ok kws → (length kws ≤ ISTOCK_MAX)%nat.
Proof.
  unfold istock_mapped. intros (raw & Hraw & Heq)%bind_Ok.
  assert (kws = map_istock (vocabulary sv) raw) as -> by congruence.
  rewrite map_istock_length. by apply (generate_istock_length sv).
Qed.

End generation.

(** C4: every keyword list that generation returns is within the
    platform maximum: 49 for adobe, 50 for shutterstock and istock. *)
Theorem generate_length_bound sv p kws :
  generate sv p = Ok kws → (length kws ≤ platform_max p)%nat.
Proof.
  destruct p; cbn [generate platform_max].
  - intros (base_kw & _ & [->|(groq_kw & Hlt & ->)])%generate_adobe_Ok.
    + apply firstn_le_length.
    + pose proof (fill_keywords_length (firstn ADOBE_MAX base_kw)
                    (Z.of_nat ADOBE_MAX) groq_kw) as Hb.
      unfold len in Hb. lia.
  - unfold generate_shutter, take_to. intros (l & _ & Heq)%bind_Ok.
    assert (kws = firstn SHUTTER_MAX l) as -> by congruence.
    apply firstn_le_length.
  - apply generate_istock_length.
Qed.

Lemma generate_length_bound_witness :
  generate (answering "wind turbine, power line") adobe
  = Ok ["wind turbine"; "power line"] ∧
  (length ["wind turbine"; "power line"] ≤ platform_max adobe)%nat.
Proof.
  assert (generate (answering "wind turbine, power line") adobe
          = Ok ["wind turbine"; "power line"]) as H.
  { vm_compute. reflexivity. }
  split; [exact H|]. exact (generate_length_bound _ _ _ H).
Defined.

(** C5: the claim as stated fails: the parsed terms are not
    deduplicated, so a response that repeats a term in another case
    gives a keyword set with two entries equal case-insensitively. *)
Lemma generate_keeps_duplicates :
  generate (answering "dog, Dog") shutterstock = Ok ["dog"; "Dog"] ∧
  api_keywords (Ok "dog, Dog") = Ok ["dog"; "Dog"] ∧
  ¬ ci_distinct ["dog"; "Dog"].
Proof.
  split; [vm_compute; reflexivity|]. split; [vm_compute; reflexivity|].
  apply (bool_decide_eq_false_1 (ci_distinct _)). vm_compute. reflexivity.
Qed.

Lemma api_keywords_distinct response kws :
  response_distinct response →
  api_keywords response = Ok kws → ci_distinct kws.
Proof.
  intros Hd (raw & -> & ->)%api_keywords_Ok.
  apply ci_distinct_firstn. by apply Hd.
Qed.

(** C5, as the code has it: generation trims, truncates and pads but
    removes no duplicate.  A generated keyword set has no two entries
    equal case-insensitively whenever the terms it starts from (the
    terms parsed from the platform's response, or the tags of the
    tagging service) have none; duplicates inside the padding
    candidates are dropped. *)
Theorem generate_distinct_from_distinct sv p kws :
  base_distinct sv p →
  generate sv p = Ok kws → ci_distinct kws.
Proof.
  destruct p; cbn [generate base_distinct].
  - intros [Htags Hresp]
      (base_kw & Hbase & [->|(groq_kw & _ & ->)])%generate_adobe_Ok.
    + apply ci_distinct_firstn.
      destruct Hbase as [?|?];
        [by apply Htags|by eapply api_keywords_distinct].
    + apply fill_keywords_distinct, ci_distinct_firstn.
      destruct Hbase as [?|?];
        [by apply Htags|by eapply api_keywords_distinct].
  - unfold generate_shutter, take_to. intros Hd (l & Hl & Heq)%bind_Ok.
    assert (kws = firstn SHUTTER_MAX l) as -> by congruence.
    apply ci_distinct_firstn. by eapply api_keywords_distinct.
  - unfold generate_istock, take_to. intros Hd (l & Hl & Heq)%bind_Ok.
    assert (kws = firstn ISTOCK_MAX l) as -> by congruence.
    apply ci_distinct_firstn. by eapply api_keywords_distinct.
Qed.

Lemma generate_distinct_from_distinct_witness :
  base_distinct (answering "dog, cat, dog park") adobe ∧
  generate (answering "dog, cat, dog park") adobe
  = Ok ["dog"; "cat"; "dog park"] ∧
  ci_distinct ["dog"; "cat"; "dog park"].
Proof.
  assert (base_distinct (answering "dog, cat, dog park") adobe) as Hb.
  { split; [discriminate|]. intros raw [= <-].
    apply (bool_decide_eq_true_1 (ci_distinct _)). vm_compute. reflexivity. }
  assert (generate (answering "dog, cat, dog park") adobe
          = Ok ["dog"; "cat"; "dog park"]) as Hg.
  { vm_compute. reflexivity. }
  split; [exact Hb|]. split; [exact Hg|].
  exact (generate_distinct_from_distinct _ _ _ Hb Hg).
Defined.

(** ** Vocabulary mapping *)

(** C8: the claim as stated fails: when a replacement term is itself a
    key of the map, the second application replaces it again. *)
Lemma map_istock_not_idempotent :
  let vocabulary : gmap string string := {[ "dog" := "cat"; "cat" := "bird" ]} in
  map_istock vocabulary ["dog"] = ["cat"] ∧
  map_istock vocabulary (map_istock vocabulary ["dog"]) = ["bird"] ∧
  map_istock vocabulary (map_istock vocabulary ["dog"])
  ≠ map_istock vocabulary ["dog"].
Proof.
  split; [vm_compute; reflexivity|]. split; [vm_compute; reflexivity|].
  vm_compute. congruence.
Qed.

(** C8, as the code has it: one application looks every term up once.
    Applying the mapping twice equals applying it once for every
    vocabulary in which no replacement term is itself mapped to a
    different term. *)
Theorem map_istock_idempotent vocabulary kws :
  settled vocabulary →
  map_istock vocabulary (map_istock vocabulary kws)
  = map_istock vocabulary kws.
Proof.
  intros Hs. unfold map_istock. rewrite map_map.
  apply map_ext. intros k.
  destruct (vocabulary !! strip (lower k)) as [v|] eqn:Hk; simpl.
  - by apply (Hs _ _ Hk).
  - by rewrite Hk.
Qed.

Lemma map_istock_idempotent_witness :
  let vocabulary : gmap string string := {[ "dog" := "Dog (domestic)" ]} in
  settled vocabulary ∧
  map_istock vocabulary (map_istock vocabulary ["dog"; "cat"])
  = map_istock vocabulary ["dog"; "cat"].
Proof.
  assert (settled ({[ "dog" := "Dog (domestic)" ]} : gmap string string))
    as Hs.
  { intros k v Hkv. apply lookup_singleton_Some in Hkv as [_ <-].
    vm_compute. reflexivity. }
  split; [exact Hs|]. exact (map_istock_idempotent _ _ Hs).
Defined.

Example map_istock_scenario :
  map_istock {[ "dog" := "Dog (domestic)" ]} ["dog"; "cat"]
  = ["Dog (domestic)"; "cat"].
Proof. vm_compute. reflexivity. Qed.

(** ** Thumbnails *)

Section thumbnails.
Variable wd : world.

Lemma thumbnail_fits img w h :
  (width img ≤ w)%Z → (height img ≤ h)%Z → thumbnail wd img w h = Ok img.
Proof.
  intros Hw Hh. unfold thumbnail.
  rewrite !Z.geb_leb.
  destruct (Z.leb_spec (width img) w), (Z.leb_spec (height img) h);
    simpl; (reflexivity || lia).
Qed.

(** What [Image.new] returns, when it returns. *)
Lemma Image_new_Ok w h fill img :
  Image_new w h fill = Ok img →
  width img = w ∧ height img = h ∧ ∀ x y, pixel img x y = fill.
Proof.
  unfold Image_new.
  destruct (decide ((0 <=? w)%Z = true)); [|discriminate].
  destruct (decide ((0 <=? h)%Z = true)); [|discriminate].
  intros [= <-]. done.
Qed.

Lemma Image_new_sized w h fill :
  (0 ≤ w)%Z → (0 ≤ h)%Z → ∃ img, Image_new w h fill = Ok img.
Proof.
  intros Hw Hh. unfold Image_new.
  destruct (decide ((0 <=? w)%Z = true)) as [|Hn]; [|destruct Hn; lia].
  destruct (decide ((0 <=? h)%Z = true)) as [|Hn]; [|destruct Hn; lia].
  eauto.
Qed.

Lemma Image_new_negative w h fill :
  (w < 0 ∨ h < 0)%Z → Image_new w h fill = Raise ValueError.
Proof.
  intros Hneg. unfold Image_new.
  destruct (decide ((0 <=? w)%Z = true)) as [Hw|]; [|reflexivity].
  destruct (decide ((0 <=? h)%Z = true)) as [Hh|]; [|reflexivity].
  lia.
Qed.

Lemma image_sized (img : image) : (0 ≤ width img ∧ 0 ≤ height img)%Z.
Proof.
  pose proof (width_ok img). pose proof (height_ok img). lia.
Qed.


(** A cached canvas is returned without touching the asset. *)
Lemma get_thumb_hit ch file_path w h cached :
  ch !! cache_key wd file_path w h = Some cached →
  get_thumb wd ch file_path w h = Ok (cached, ch).
Proof. unfold get_thumb. intros ->. reflexivity. Qed.

(** After a successful request the cache holds the returned canvas
    under the key of the request. *)
Lemma get_thumb_cached ch file_path w h canvas ch' :
  get_thumb wd ch file_path w h = Ok (canvas, ch') →
  ch' !! cache_key wd file_path w h = Some canvas.
Proof.
  unfold get_thumb.
  destruct (ch !! cache_key wd file_path w h) as [cached|] eqn:Hc.
  - intros [= <- <-]. exact Hc.
  - intros (img0 & _ & (img & _ & (ground & _ & Hrest)%bind_Ok)%bind_Ok)%bind_Ok.
    destruct (cache_writable wd _); [|discriminate].
    injection Hrest as <- <-. apply lookup_insert_eq.
Qed.

(** Two requests with one key: what the first caches, the second is
    served. *)
Lemma get_thumb_shared_key ch p w h p' w' h' :
  cache_key wd p w h = cache_key wd p' w' h' →
  match get_thumb wd ch p w h with
  | Ok (canvas, ch') => get_thumb wd ch' p' w' h' = Ok (canvas, ch')
  | Raise _ => True
  end.
Proof.
  intros Hkey.
  destruct (get_thumb wd ch p w h) as [[canvas ch']|] eqn:Hg; [|done].
  apply get_thumb_cached in Hg. rewrite Hkey in Hg.
  by apply get_thumb_hit.
Qed.


End thumbnails.




(** The extension is that of the name of the path, as [pathlib] takes
    it: a trailing slash does not hide it, the case does not matter,
    and a directory with a video extension higher up does not count. *)
Example is_video_by_name :
  is_video "/f/clip.mp4/" ∧ is_video "/f/./CLIP.Mov/." ∧
  ¬ is_video "/f/clips.mp4/photo.jpg" ∧ ¬ is_video "/f/.mp4".
Proof.
  repeat split;
    (apply (bool_decide_eq_true_1 (is_video _)) ||
     apply (bool_decide_eq_false_1 (is_video _))); vm_compute; reflexivity.
Qed.

(** C10: the cache key is not injective, whatever the hash: the path
    and the two sizes are concatenated without a delimiter, so distinct
    requests share a key, and a request then returns the canvas cached
    for another size or another path. *)
Theorem cache_key_not_injective wd :
  (cache_key wd "a" 1 23 = cache_key wd "a" 12 3 ∧
   cache_key wd "a1" 2 3 = cache_key wd "a" 12 3) ∧
  (∃ p w h p' w' h',
     (p, w, h) ≠ (p', w', h') ∧ cache_key wd p w h = cache_key wd p' w' h') ∧
  (∀ ch,
     match get_thumb wd ch "a" 1 23 with
     | Ok (canvas, ch') => get_thumb wd ch' "a" 12 3 = Ok (canvas, ch')
     | Raise _ => True
     end) ∧
  (∀ ch,
     match get_thumb wd ch "a1" 2 3 with
     | Ok (canvas, ch') => get_thumb wd ch' "a" 12 3 = Ok (canvas, ch')
     | Raise _ => True
     end).
Proof.
  assert (cache_key wd "a" 1 23 = cache_key wd "a" 12 3) as H1
    by reflexivity.
  assert (cache_key wd "a1" 2 3 = cache_key wd "a" 12 3) as H2
    by reflexivity.
  split; [by split|]. split.
  { exists "a", 1%Z, 23%Z, "a", 12%Z, 3%Z. split; [congruence|exact H1]. }
  split; intros ch.
  - by apply (get_thumb_shared_key wd ch "a" 1 23 "a" 12 3).
  - by apply (get_thumb_shared_key wd ch "a1" 2 3 "a" 12 3).
Qed.

(** The canvas of the 1 by 23 request answers the 12 by 3 request. *)
Example wrong_size_from_cache :
  ∃ canvas ch',
    get_thumb white_pixel ∅ "a" 1 23 = Ok (canvas, ch') ∧
    (∃ served, get_thumb white_pixel ch' "a" 12 3 = Ok (served, ch') ∧
               width served = 1%Z ∧ height served = 23%Z).
Proof.
  destruct (get_thumb white_pixel ∅ "a" 1 23) as [[canvas ch']|] eqn:Hg;
    [|vm_compute in Hg; discriminate].
  exists canvas, ch'. split; [reflexivity|].
  pose proof (get_thumb_shared_key white_pixel ∅ "a" 1 23 "a" 12 3 eq_refl)
    as Hserved.
  rewrite Hg in Hserved. exists canvas. split; [exact Hserved|].
  unfold get_thumb in Hg. rewrite lookup_empty in Hg. simpl in Hg.
  injection Hg as <- _. split; reflexivity.
Qed.
(** ** Dictionaries *)

Section dict_facts.
Context {K V : Type} `{EqDecision K}.
Implicit Types (d : list (K * V)) (k : K) (v : V).



Lemma dict_get_None k d : dict_get k d = None ↔ k ∉ dict_keys d.
Proof.
  induction d as [|[k' v'] d IH]; simpl.
  - split; [intros _; apply not_elem_of_nil|done].
  - rewrite not_elem_of_cons.
    destruct (decide (k' = k)) as [->|Hne].
    + split; [done|]. intros [Hk _]. done.
    + rewrite IH. split; [intros ?; split; [congruence|done]|intros [_ ?]; done].
Qed.

Lemma dict_get_elem k v d : dict_get k d = Some v → (k, v) ∈ d.
Proof.
  induction d as [|[k' v'] d IH]; simpl; [done|].
  destruct (decide (k' = k)) as [->|Hne].
  - intros [= ->]. apply elem_of_cons. by left.
  - intros Hd. apply elem_of_cons. right. auto.
Qed.

Lemma dict_set_fresh k v d :
  k ∉ dict_keys d → dict_set k v d = d ++ [(k, v)].
Proof.
  induction d as [|[k' v'] d IH]; simpl; [done|].
  rewrite not_elem_of_cons. intros [Hne Hd].
  rewrite decide_False by done. by rewrite IH.
Qed.

Lemma dict_keys_set k v d :
  dict_keys (dict_set k v d)
  = if decide (k ∈ dict_keys d) then dict_keys d else dict_keys d ++ [k].
Proof.
  induction d as [|[k' v'] d IH]; simpl.
  - destruct (decide (k ∈ [])) as [Hin|_]; [by apply elem_of_nil in Hin|done].
  - destruct (decide (k' = k)) as [->|Hne]; simpl.
    + destruct (decide (k ∈ k :: dict_keys d)) as [_|Hnin]; [done|].
      destruct Hnin. apply elem_of_cons. by left.
    + rewrite IH.
      destruct (decide (k ∈ dict_keys d)) as [Hin|Hin],
               (decide (k ∈ k' :: dict_keys d)) as [Hin'|Hin']; try done.
      * destruct Hin'. apply elem_of_cons. by right.
      * apply elem_of_cons in Hin' as [?|?]; [congruence|done].
Qed.

Lemma dict_set_NoDup k v d : NoDup (dict_keys d) → NoDup (dict_keys (dict_set k v d)).
Proof.
  intros Hd. rewrite dict_keys_set. case_decide; [done|].
  apply NoDup_app. split; [done|]. split; [|apply NoDup_singleton].
  intros x Hx ->%list_elem_of_singleton. done.
Qed.

(** Entries with distinct keys make the dictionary that lists them. *)
Lemma fold_dict_set_NoDup (l d : list (K * V)) :
  NoDup (dict_keys (d ++ l)) →
  fold_left (fun d kv => dict_set (fst kv) (snd kv) d) l d = d ++ l.
Proof.
  revert d. induction l as [|[k v] l IH]; intros d Hnd; simpl.
  - by rewrite app_nil_r.
  - assert (k ∉ dict_keys d) as Hk.
    { unfold dict_keys in *. rewrite map_app in Hnd.
      apply NoDup_app in Hnd as (_ & Hdis & _).
      intros Hin. apply (Hdis k Hin). simpl. apply elem_of_cons. by left. }
    rewrite dict_set_fresh by done.
    rewrite IH; rewrite <- app_assoc; done.
Qed.

Lemma dict_of_NoDup (l : list (K * V)) : NoDup (dict_keys l) → dict_of l = l.
Proof. intros Hl. unfold dict_of. by rewrite fold_dict_set_NoDup. Qed.

Lemma dict_get_combine (f : K → V) (ks : list K) k :
  dict_get k (combine ks (map f ks))
  = if decide (k ∈ ks) then Some (f k) else None.
Proof.
  induction ks as [|k' ks IH]; simpl.
  - destruct (decide (k ∈ [])) as [Hin|_]; [by apply elem_of_nil in Hin|done].
  - destruct (decide (k' = k)) as [->|Hne].
    + destruct (decide (k ∈ k :: ks)) as [_|Hnin]; [done|].
      destruct Hnin. apply elem_of_cons. by left.
    + rewrite IH.
      destruct (decide (k ∈ ks)) as [Hin|Hin],
               (decide (k ∈ k' :: ks)) as [Hin'|Hin']; try done.
      * destruct Hin'. apply elem_of_cons. by right.
      * apply elem_of_cons in Hin' as [?|?]; [congruence|done].
Qed.

Lemma dict_keys_combine (vs : list V) (ks : list K) :
  length vs = length ks → dict_keys (combine ks vs) = ks.
Proof.
  revert vs. induction ks as [|k ks IH]; intros [|v vs]; simpl; try done.
  intros [= Hl]. by rewrite IH.
Qed.

Lemma dict_get_map_values {W} (g : V → W) k d :
  dict_get k (map (fun kv => (fst kv, g (snd kv))) d) = g <$> dict_get k d.
Proof.
  induction d as [|[k' v'] d IH]; simpl; [done|].
  destruct (decide (k' = k)); [done|exact IH].
Qed.


End dict_facts.

(** ** Reading back what the writer wrote *)

Section csv_reader.

Lemma app_cons c (s t : string) : String c s +:+ t = String c (s +:+ t).
Proof. reflexivity. Qed.

Lemma app_nil_l_s (t : string) : EmptyString +:+ t = t.
Proof. reflexivity. Qed.

Lemma app_nil_r_s (s : string) : s +:+ EmptyString = s.
Proof. induction s as [|c s IH]; [reflexivity|]. by rewrite app_cons, IH. Qed.

Lemma app_assoc_s (s t u : string) : (s +:+ t) +:+ u = s +:+ t +:+ u.
Proof. induction s as [|c s IH]; [reflexivity|]. by rewrite !app_cons, IH. Qed.

Lemma length_app_s (s t : string) :
  String.length (s +:+ t) = (String.length s + String.length t)%nat.
Proof.
  induction s as [|c s IH]; [reflexivity|].
  rewrite app_cons. cbn [String.length]. by rewrite IH.
Qed.

Lemma within_limit_empty : within_limit EmptyString.
Proof. unfold within_limit, field_size_limit. cbn [String.length]. lia. Qed.

Lemma within_limit_char c : within_limit (String c EmptyString).
Proof. unfold within_limit, field_size_limit. cbn [String.length]. lia. Qed.

Lemma within_limit_prefix s t : within_limit (s +:+ t) → within_limit s.
Proof. unfold within_limit. rewrite length_app_s. lia. Qed.

Lemma within_limit_snoc fd c f :
  within_limit (fd +:+ String c f) →
  within_limit (fd +:+ String c EmptyString).
Proof.
  intros H. apply (within_limit_prefix _ f).
  by rewrite app_assoc_s, app_cons, app_nil_l_s.
Qed.

Local Abbreviation Rd := Build_reader.

(** A character is taken while the field is short of the limit. *)
Lemma add_char_within c st fs fd :
  within_limit (fd +:+ String c EmptyString) →
  add_char c (Rd st fs fd) = Ok (Rd st fs (fd +:+ String c EmptyString)).
Proof.
  unfold within_limit, add_char. rewrite length_app_s.
  cbn [state fields field String.length]. intros H.
  destruct (Z.leb_spec field_size_limit (Z.of_nat (String.length fd)));
    [lia|reflexivity].
Qed.


Lemma add_char_Ok c r r' :
  add_char c r = Ok r' →
  r' = Rd (state r) (fields r) (field r +:+ String c EmptyString) ∧
  within_limit (field r +:+ String c EmptyString).
Proof.
  unfold within_limit, add_char. rewrite length_app_s.
  cbn [String.length].
  destruct (Z.leb_spec field_size_limit (Z.of_nat (String.length (field r))));
    [discriminate|].
  intros [= <-]. split; [reflexivity|lia].
Qed.

Lemma from_line_start_cons r c s :
  from_line_start r (String c s) = from_inside r (String c s).
Proof.
  unfold from_line_start, from_inside.
  destruct (file_lines (String c s)) as [|line lines] eqn:E; [|reflexivity].
  exfalso. simpl in E.
  destruct (Ascii.eqb c LF); [done|].
  destruct (Ascii.eqb c CR).
  - destruct s as [|c2 s2]; [done|]. by destruct (Ascii.eqb c2 LF).
  - by destruct (file_lines s).
Qed.

Lemma from_inside_char r c s :
  is_newline c = false →
  from_inside r (String c s)
  = (r1 ← parse_process_char r (Ch c); from_inside r1 s).
Proof.
  intros Hc. apply orb_false_iff in Hc as [HLF HCR].
  unfold from_inside. simpl file_lines. rewrite HLF, HCR.
  destruct (file_lines s) as [|line lines]; simpl.
  - destruct (parse_process_char r (Ch c)); reflexivity.
  - destruct (parse_process_char r (Ch c)); reflexivity.
Qed.

Lemma from_inside_LF r s :
  from_inside r (String LF s)
  = (r1 ← parse_process_char r (Ch LF); end_line r1 (file_lines s)).
Proof.
  unfold from_inside. simpl.
  destruct (parse_process_char r (Ch LF)); reflexivity.
Qed.

Lemma from_inside_CRLF r s :
  from_inside r (String CR (String LF s))
  = (r1 ← parse_process_char r (Ch CR);
     r2 ← parse_process_char r1 (Ch LF); end_line r2 (file_lines s)).
Proof.
  unfold from_inside. simpl.
  destruct (parse_process_char r (Ch CR)) as [r1|]; simpl; [|reflexivity].
  destruct (parse_process_char r1 (Ch LF)); reflexivity.
Qed.

Lemma from_inside_CR r s :
  (∀ s2, s ≠ String LF s2) →
  from_inside r (String CR s)
  = (r1 ← parse_process_char r (Ch CR); end_line r1 (file_lines s)).
Proof.
  intros Hs. unfold from_inside.
  assert (file_lines (String CR s) = String CR EmptyString :: file_lines s)
    as ->.
  { destruct s as [|c2 s2]; [reflexivity|].
    change (file_lines (String CR (String c2 s2)))
      with (if Ascii.eqb c2 LF
            then String CR (String c2 EmptyString) :: file_lines s2
            else String CR EmptyString :: file_lines (String c2 s2)).
    destruct (Ascii.eqb_spec c2 LF) as [->|Hne]; [by destruct (Hs s2)|done]. }
  simpl. destruct (parse_process_char r (Ch CR)); reflexivity.
Qed.

Ltac csv_step :=
  unfold parse_process_char, start_field, set_state, save_field;
  cbn [state fields field mbind result_bind];
  rewrite ?Ascii.eqb_refl; cbn [mbind result_bind].

Lemma end_line_quoted fs fd lines :
  end_line (Rd IN_QUOTED_FIELD fs fd) lines
  = records (Rd IN_QUOTED_FIELD fs fd) lines.
Proof. reflexivity. Qed.

Lemma from_inside_quoted fs fd s :
  from_inside (Rd IN_QUOTED_FIELD fs fd) s
  = from_line_start (Rd IN_QUOTED_FIELD fs fd) s.
Proof. destruct s; [reflexivity|]. by rewrite from_line_start_cons. Qed.

(** Inside quotes every character but the quote is data, a line
    break included. *)
Lemma quoted_step fs fd c :
  Ascii.eqb c quotechar = false →
  parse_process_char (Rd IN_QUOTED_FIELD fs fd) (Ch c)
  = add_char c (Rd IN_QUOTED_FIELD fs fd).
Proof. intros Hq. csv_step. by rewrite Hq. Qed.

Lemma quoted_char_any fs fd c t :
  Ascii.eqb c quotechar = false →
  from_inside (Rd IN_QUOTED_FIELD fs fd) (String c t)
  = (r1 ← add_char c (Rd IN_QUOTED_FIELD fs fd); from_inside r1 t).
Proof.
  intros Hq.
  destruct (Ascii.eqb_spec c LF) as [->|HLF].
  { rewrite from_inside_LF, quoted_step by done.
    destruct (add_char LF _) as [r1|] eqn:Ha; [|reflexivity].
    apply add_char_Ok in Ha as [-> _]. cbn [mbind result_bind state fields field].
    by rewrite end_line_quoted, from_inside_quoted. }
  destruct (Ascii.eqb_spec c CR) as [->|HCR].
  { destruct t as [|c2 t2].
    - unfold from_inside at 1. cbn [file_lines]. cbn [Ascii.eqb]. simpl.
      rewrite quoted_step by done.
      destruct (add_char CR _) as [r1|] eqn:Ha; [|reflexivity].
      cbn [mbind result_bind].
      apply add_char_Ok in Ha as [-> _]. reflexivity.
    - destruct (Ascii.eqb_spec c2 LF) as [->|Hne].
      + rewrite from_inside_CRLF, quoted_step by done.
        destruct (add_char CR _) as [r1|] eqn:Ha; [|reflexivity].
        cbn [mbind result_bind]. by rewrite from_inside_LF.
      + rewrite from_inside_CR by congruence. rewrite quoted_step by done.
        destruct (add_char CR _) as [r1|] eqn:Ha; [|reflexivity].
        apply add_char_Ok in Ha as [-> _].
        cbn [mbind result_bind state fields field].
        by rewrite end_line_quoted, from_inside_quoted. }
  rewrite from_inside_char.
  - by rewrite quoted_step.
  - unfold is_newline. apply orb_false_iff.
    split; by apply Ascii.eqb_neq.
Qed.

Lemma quoted_char fs fd c t :
  Ascii.eqb c quotechar = false →
  within_limit (fd +:+ String c EmptyString) →
  from_inside (Rd IN_QUOTED_FIELD fs fd) (String c t)
  = from_inside (Rd IN_QUOTED_FIELD fs (fd +:+ String c EmptyString)) t.
Proof.
  intros Hq Hw. rewrite quoted_char_any by done.
  by rewrite add_char_within.
Qed.

(** A doubled quote inside quotes is one quote of the field. *)
Lemma quoted_quote_any fs fd t :
  from_inside (Rd IN_QUOTED_FIELD fs fd)
              (String quotechar (String quotechar t))
  = (r1 ← add_char quotechar (Rd IN_QUOTED_FIELD fs fd); from_inside r1 t).
Proof.
  rewrite from_inside_char by reflexivity. csv_step.
  rewrite from_inside_char by reflexivity. csv_step.
  unfold add_char. cbn [state fields field].
  destruct (_ <=? _)%Z; reflexivity.
Qed.

Lemma quoted_body f : ∀ fs fd t,
  within_limit (fd +:+ f) →
  from_inside (Rd IN_QUOTED_FIELD fs fd) (escape f +:+ String quotechar t)
  = from_inside (Rd QUOTE_IN_QUOTED_FIELD fs (fd +:+ f)) t.
Proof.
  induction f as [|c f IH]; intros fs fd t Hw.
  - rewrite app_nil_r_s. simpl escape. rewrite app_nil_l_s.
    by rewrite from_inside_char.
  - assert (within_limit ((fd +:+ String c EmptyString) +:+ f)) as Hw'
      by by rewrite app_assoc_s.
    simpl escape. destruct (Ascii.eqb_spec c quotechar) as [->|Hne].
    + rewrite !app_cons, quoted_quote_any.
      rewrite add_char_within by by eapply within_limit_snoc.
      cbn [mbind result_bind].
      rewrite IH by done. by rewrite app_assoc_s.
    + rewrite app_cons, quoted_char;
        [|by apply Ascii.eqb_neq|by eapply within_limit_snoc].
      rewrite IH by done. by rewrite app_assoc_s.
Qed.


Lemma special_false c :
  special c = false →
  Ascii.eqb c delimiter = false ∧ Ascii.eqb c quotechar = false ∧
  is_newline c = false.
Proof.
  unfold special. intros H.
  apply orb_false_iff in H as [H H3]. apply orb_false_iff in H as [H1 H2].
  done.
Qed.

Lemma in_field_char_any fs fd c t :
  special c = false →
  from_inside (Rd IN_FIELD fs fd) (String c t)
  = (r1 ← add_char c (Rd IN_FIELD fs fd); from_inside r1 t).
Proof.
  intros (Hd & Hq & Hn)%special_false.
  rewrite from_inside_char by done. csv_step. by rewrite Hn, Hd.
Qed.

Lemma in_field_body f : ∀ fs fd t,
  needs_quote f = false → within_limit (fd +:+ f) →
  from_inside (Rd IN_FIELD fs fd) (f +:+ t)
  = from_inside (Rd IN_FIELD fs (fd +:+ f)) t.
Proof.
  induction f as [|c f IH]; intros fs fd t Hf Hw.
  - by rewrite app_nil_r_s.
  - simpl in Hf. apply orb_false_iff in Hf as [Hc Hf].
    rewrite app_cons, in_field_char_any by done.
    rewrite add_char_within by by eapply within_limit_snoc.
    cbn [mbind result_bind].
    rewrite IH; [by rewrite app_assoc_s|done|by rewrite app_assoc_s].
Qed.


(** A character that starts an unquoted field. *)
Lemma plain_first st fs c t :
  fresh st → special c = false →
  from_inside (Rd st fs EmptyString) (String c t)
  = from_inside (Rd IN_FIELD fs (String c EmptyString)) t.
Proof.
  intros Hst (Hd & Hq & Hn)%special_false.
  rewrite from_inside_char by done.
  destruct Hst as [-> | ->]; csv_step; rewrite ?Hn, ?Hq, ?Hd;
    rewrite (add_char_within c _ fs EmptyString)
      by apply within_limit_char; reflexivity.
Qed.

(** An opening quote. *)
Lemma quote_first st fs t :
  fresh st →
  from_inside (Rd st fs EmptyString) (String quotechar t)
  = from_inside (Rd IN_QUOTED_FIELD fs EmptyString) t.
Proof.
  intros Hst. rewrite from_inside_char by done.
  destruct Hst as [-> | ->]; reflexivity.
Qed.

Lemma quoted_text_app f t :
  quoted_text f +:+ t
  = String quotechar (escape f +:+ String quotechar t).
Proof. unfold quoted_text. by rewrite app_cons, app_assoc_s. Qed.

(** The carriage return and line feed that end a record, after a
    field has been collected. *)
Lemma crlf_after_field st fs fd t :
  st = IN_FIELD ∨ st = QUOTE_IN_QUOTED_FIELD ∨
    (st = START_FIELD ∧ fd = EmptyString) →
  from_inside (Rd st fs fd) (String CR (String LF t))
  = (rows ← from_line_start parse_reset t; Ok ((fs ++ [fd]) :: rows)).
Proof.
  intros Hst. rewrite from_inside_CRLF.
  destruct Hst as [-> | [-> | [-> ->]]]; reflexivity.
Qed.

Lemma delimiter_after_field st fs fd t :
  st = IN_FIELD ∨ st = QUOTE_IN_QUOTED_FIELD ∨
    (fresh st ∧ fd = EmptyString) →
  from_inside (Rd st fs fd) (String delimiter t)
  = from_inside (Rd START_FIELD (fs ++ [fd]) EmptyString) t.
Proof.
  intros Hst. rewrite from_inside_char by done.
  destruct Hst as [-> | [-> | [[-> | ->] ->]]]; reflexivity.
Qed.

(** A field as the writer encodes it, up to the delimiter. *)
Lemma field_delimiter st fs f t :
  fresh st → within_limit f →
  from_inside (Rd st fs EmptyString)
              (join_append f false +:+ String delimiter t)
  = from_inside (Rd START_FIELD (fs ++ [f]) EmptyString) t.
Proof.
  intros Hst Hw. unfold join_append. cbn [orb].
  destruct (needs_quote f) eqn:Hf.
  - rewrite quoted_text_app, quote_first, quoted_body by done.
    rewrite app_nil_l_s. apply delimiter_after_field. auto.
  - destruct f as [|c f].
    + rewrite app_nil_l_s. apply delimiter_after_field. auto.
    + simpl in Hf. apply orb_false_iff in Hf as [Hc Hf].
      rewrite app_cons, plain_first, in_field_body by done.
      apply delimiter_after_field. auto.
Qed.

(** A field as the writer encodes it, ending its record. *)
Lemma field_crlf st fs f t :
  st = START_FIELD ∨ (st = START_RECORD ∧ join_append f false ≠ EmptyString) →
  within_limit f →
  from_inside (Rd st fs EmptyString)
              (join_append f false +:+ String CR (String LF t))
  = (rows ← from_line_start parse_reset t; Ok ((fs ++ [f]) :: rows)).
Proof.
  intros Hst Hw.
  assert (fresh st) as Hfresh by (unfold fresh; tauto).
  revert Hst. unfold join_append. cbn [orb].
  destruct (needs_quote f) eqn:Hf; intros Hst.
  - rewrite quoted_text_app, quote_first, quoted_body by done.
    rewrite app_nil_l_s. apply crlf_after_field. auto.
  - destruct f as [|c f].
    + rewrite app_nil_l_s. apply crlf_after_field.
      destruct Hst as [->|[_ ?]]; [auto|done].
    + simpl in Hf. apply orb_false_iff in Hf as [Hc Hf].
      rewrite app_cons, plain_first, in_field_body by done.
      apply crlf_after_field. auto.
Qed.

(** A quoted field ending its record. *)
Lemma quoted_crlf st fs f t :
  fresh st → within_limit f →
  from_inside (Rd st fs EmptyString)
              (quoted_text f +:+ String CR (String LF t))
  = (rows ← from_line_start parse_reset t; Ok ((fs ++ [f]) :: rows)).
Proof.
  intros Hst Hw.
  rewrite quoted_text_app, quote_first, quoted_body by done.
  rewrite app_nil_l_s. apply crlf_after_field. auto.
Qed.


Lemma join_cons2 sep w w' ws :
  join sep (w :: w' :: ws) = w +:+ sep +:+ join sep (w' :: ws).
Proof. reflexivity. Qed.

(** The fields after the first one, to the end of the record. *)
Lemma fields_crlf vs : ∀ fs t,
  vs ≠ [] → row_within vs →
  from_inside (Rd START_FIELD fs EmptyString)
    (join comma (map encode vs) +:+ String CR (String LF t))
  = (rows ← from_line_start parse_reset t;
     Ok ((fs ++ map field_text vs) :: rows)).
Proof.
  induction vs as [|v vs IH]; intros fs t Hne Hw; [done|].
  inversion Hw as [|? ? Hv Hvs]; subst.
  destruct vs as [|v' vs].
  - apply field_crlf; auto.
  - cbn [map]. rewrite join_cons2. unfold comma at 1.
    rewrite !app_assoc_s, app_cons, app_nil_l_s.
    unfold encode at 1. rewrite field_delimiter by (done || by left).
    cbn [map] in IH. rewrite IH by done.
    by rewrite <- app_assoc.
Qed.


Lemma is_empty_app_cons s c t : is_empty (s +:+ String c t) = false.
Proof. destruct s; reflexivity. Qed.

Lemma from_line_start_nonempty r s c t :
  from_line_start r (s +:+ String c t) = from_inside r (s +:+ String c t).
Proof. destruct s; apply from_line_start_cons. Qed.

(** One written record is read back as its fields. *)
Lemma read_writerow vs t :
  row_within vs →
  from_line_start parse_reset (writerow vs +:+ t)
  = (rows ← from_line_start parse_reset t; Ok (map field_text vs :: rows)).
Proof.
  intros Hw.
  unfold writerow, lineterminator. rewrite app_assoc_s.
  change (String CR (String LF EmptyString) +:+ t)
    with (String CR (String LF t)).
  rewrite from_line_start_nonempty.
  fold comma.
  change (fun v : option string => join_append (field_text v) false)
    with encode.
  unfold parse_reset.
  destruct vs as [|v [|v' vs]].
  - reflexivity.
  - inversion Hw as [|? ? Hv _]; subst.
    cbn [map join length Nat.ltb Nat.leb andb].
    destruct (is_empty (encode v)) eqn:He.
    + rewrite quoted_crlf by (apply within_limit_empty || by right).
      apply is_empty_true in He.
      assert (field_text v = EmptyString) as ->; [|reflexivity].
      revert He. unfold encode, join_append. cbn [orb].
      by destruct (needs_quote (field_text v)).
    + unfold encode. rewrite field_crlf; [reflexivity| |done].
      right. split; [done|]. fold (encode v). intros Hv'. by rewrite Hv' in He.
  - inversion Hw as [|? ? Hv Hvs]; subst.
    assert ((0 <? length (v :: v' :: vs))%nat = true) as -> by reflexivity.
    assert (join comma (map encode (v :: v' :: vs))
            = encode v +:+ String delimiter (join comma (map encode (v' :: vs))))
      as -> by reflexivity.
    rewrite is_empty_app_cons. cbn [andb].
    rewrite !app_assoc_s, app_cons.
    unfold encode at 1. rewrite field_delimiter by (done || by right).
    rewrite fields_crlf by done. reflexivity.
Qed.



(** What the writer writes, the reader reads back. *)
Lemma read_rows_text rows :
  Forall row_within rows →
  read_text (rows_text rows) = Ok (map (map field_text) rows).
Proof.
  unfold read_text. fold (from_line_start parse_reset (rows_text rows)).
  induction 1 as [|vs rest Hvs Hrest IH]; [reflexivity|].
  cbn [rows_text map]. rewrite read_writerow, IH by done. reflexivity.
Qed.


(** *** What the reader returns is within the limit *)

Lemma reader_within_reset : reader_within parse_reset.
Proof. split; [apply within_limit_empty|constructor]. Qed.

Lemma reader_within_save st st' fs fd :
  reader_within (Rd st fs fd) →
  reader_within (Rd st' (fs ++ [fd]) EmptyString).
Proof.
  intros [Hfd Hfs]. split; [apply within_limit_empty|].
  apply Forall_app. split; [done|by constructor].
Qed.

Lemma reader_within_add c r r' st :
  reader_within r → add_char c r = Ok r' →
  reader_within (Rd st (fields r') (field r')).
Proof.
  intros [_ Hfs] [-> Hw]%add_char_Ok. split; done.
Qed.

Lemma parse_process_char_within r i r' :
  reader_within r → parse_process_char r i = Ok r' → reader_within r'.
Proof.
  intros Hr. destruct r as [st fs fd].
  pose proof (reader_within_save st START_RECORD fs fd Hr) as H1.
  pose proof (reader_within_save st EAT_CRNL fs fd Hr) as H2.
  pose proof (reader_within_save st START_FIELD fs fd Hr) as H3.
  unfold parse_process_char, start_field, set_state, save_field.
  cbn [state fields field].
  destruct st, i as [c|];
    repeat match goal with
           | |- context [if ?b then _ else _] => destruct b
           end;
    try (intros [= <-]; done);
    try discriminate;
    try (intros (r1 & Ha & [= <-])%bind_Ok;
         eapply reader_within_add; [exact Hr|exact Ha]);
    try (intros Ha; destruct r' as [st' fs' fd'];
         pose proof (reader_within_add c _ _ st' Hr Ha) as Hr';
         apply add_char_Ok in Ha as [[= -> -> ->] _]; exact Hr').
Qed.

Lemma feed_line_within line : ∀ r r',
  reader_within r → feed_line r line = Ok r' → reader_within r'.
Proof.
  induction line as [|c line IH]; intros r r' Hr; simpl.
  - by intros [= <-].
  - intros (r1 & H1 & H2)%bind_Ok.
    eapply IH; [|exact H2]. by eapply parse_process_char_within.
Qed.

Lemma records_within lines : ∀ r rows,
  reader_within r → records r lines = Ok rows →
  Forall (Forall within_limit) rows.
Proof.
  induction lines as [|line lines IH]; intros r rows Hr; simpl.
  - intros [= <-]. unfold at_eof.
    destruct (_ || _); [|constructor].
    constructor; [|constructor]. destruct Hr as [Hfd Hfs].
    cbn [save_field fields]. apply Forall_app. split; [done|by constructor].
  - intros (r1 & H1 & (r2 & H2 & H3)%bind_Ok)%bind_Ok.
    assert (reader_within r2) as Hr2.
    { eapply parse_process_char_within; [|exact H2].
      by eapply feed_line_within. }
    destruct (bool_decide (state r2 = START_RECORD)).
    + apply bind_Ok in H3 as (rows' & H3 & [= <-]).
      constructor; [apply Hr2|]. eapply IH; [|exact H3].
      apply reader_within_reset.
    + by eapply IH.
Qed.

Lemma read_text_within text rows :
  read_text text = Ok rows → Forall (Forall within_limit) rows.
Proof. apply records_within, reader_within_reset. Qed.

End csv_reader.

(** ** The record table *)

Section record_store.

Global Instance row_equiv_equivalence : Equivalence row_equiv.
Proof.
  split.
  - intros r. by split.
  - intros r1 r2 [He Hc]. split; [done|]. intros k. by rewrite Hc.
  - intros r1 r2 r3 [He1 Hc1] [He2 Hc2]. split; [congruence|].
    intros k. by rewrite Hc1.
Qed.

Lemma CSV_H_NoDup : NoDup CSV_H.
Proof. apply (bool_decide_eq_true_1 (NoDup CSV_H)). vm_compute. reflexivity. Qed.

Lemma dict_to_list_conforms r :
  conforms r → dict_to_list CSV_H r = Ok (fields_of r).
Proof.
  intros (He & _ & Hk & _ & _). unfold dict_to_list.
  rewrite bool_decide_eq_true_2 by done.
  assert (forallb (fun k => bool_decide (k ∈ CSV_H)) (dict_keys (cells r)) = true)
    as ->; [|reflexivity].
  apply forallb_forall. intros k Hin.
  apply bool_decide_eq_true_2.
  rewrite Forall_forall in Hk. apply Hk. by apply list_elem_of_In.
Qed.

Lemma reread_cells r :
  reread r
  = {| cells := combine CSV_H
                  (map (fun key => Some (field_text
                          (default (Some EmptyString) (dict_get key (cells r)))))
                       CSV_H);
       extra := None |}.
Proof.
  unfold reread, make_row, fields_of. rewrite !length_map.
  rewrite Nat.ltb_irrefl, skipn_all. cbn [fold_left].
  rewrite !map_map. rewrite dict_of_NoDup; [reflexivity|].
  rewrite dict_keys_combine by by rewrite length_map.
  apply CSV_H_NoDup.
Qed.

Lemma conforms_get r k :
  conforms r → k ∈ CSV_H → ∃ s, dict_get k (cells r) = Some (Some s).
Proof.
  intros (_ & _ & _ & Hall & Hv) Hk.
  rewrite Forall_forall in Hall. specialize (Hall k Hk).
  destruct (dict_get k (cells r)) as [v|] eqn:Hg.
  - apply dict_get_elem in Hg. rewrite Forall_forall in Hv.
    destruct (Hv _ Hg) as [s Hs]. simpl in Hs. subst v. eauto.
  - apply dict_get_None in Hg. done.
Qed.

Lemma reread_equiv r : conforms r → row_equiv (reread r) r.
Proof.
  intros Hr. rewrite reread_cells. split; [symmetry; apply Hr|].
  intros k. cbn [cells]. rewrite dict_get_combine.
  destruct (decide (k ∈ CSV_H)) as [Hk|Hk].
  - destruct (conforms_get r k Hr Hk) as [s ->]. reflexivity.
  - symmetry. apply dict_get_None. intros Hin.
    destruct Hr as (_ & _ & Hkeys & _). rewrite Forall_forall in Hkeys. auto.
Qed.

Lemma reread_conforms r : conforms (reread r).
Proof.
  rewrite reread_cells. unfold conforms. cbn [cells extra].
  rewrite dict_keys_combine by by rewrite length_map.
  split; [done|]. split; [apply CSV_H_NoDup|].
  split; [by apply Forall_forall|]. split; [by apply Forall_forall|].
  apply Forall_forall. intros [k v] Hin.
  apply list_elem_of_In, in_combine_r, in_map_iff in Hin as (key & <- & _).
  by eexists.
Qed.

Lemma conforms_file_path r :
  conforms r → dict_get "file_path" (cells r) = Some (file_path_of r).
Proof.
  intros Hr. unfold file_path_of.
  destruct (conforms_get r "file_path" Hr) as [s ->]; [|done].
  apply (bool_decide_eq_true_1 (_ ∈ _)). vm_compute. reflexivity.
Qed.



Lemma dict_set_Forall {K V} `{EqDecision K} (P : K * V → Prop) k v
    (d : list (K * V)) :
  P (k, v) → Forall P d → Forall P (dict_set k v d).
Proof.
  intros Hkv Hd. induction Hd as [|[k' v'] d Hx Hd IH]; simpl.
  - by constructor.
  - destruct (decide (k' = k)) as [->|Hne]; by constructor.
Qed.

Lemma dict_of_Forall {K V} `{EqDecision K} (P : K * V → Prop)
    (kvs : list (K * V)) :
  Forall P kvs → Forall P (dict_of kvs).
Proof.
  unfold dict_of. generalize (@nil (K * V)) (List.Forall_nil P).
  induction kvs as [|[k v] kvs IH]; intros d Hd Hkvs; [done|].
  inversion Hkvs as [|? ? Hkv Hrest]; subst. cbn [fold_left fst snd].
  apply IH; [|done]. by apply dict_set_Forall.
Qed.



(** *** Rows within the field size limit *)

Lemma header_within : row_within (map Some CSV_H).
Proof.
  apply (bool_decide_eq_true_1 (Forall _ _)). vm_compute. reflexivity.
Qed.

Lemma fields_of_within r : fits r → row_within (fields_of r).
Proof.
  intros Hr. unfold row_within, fields_of. apply Forall_map.
  apply Forall_forall. intros key _.
  destruct (dict_get key (cells r)) as [v|] eqn:Hg.
  - apply dict_get_elem in Hg. unfold fits in Hr.
    rewrite Forall_forall in Hr. apply (Hr _ Hg).
  - apply within_limit_empty.
Qed.


Lemma make_row_fits fieldnames row :
  Forall within_limit row → fits (make_row fieldnames row).
Proof.
  intros Hrow. unfold fits, make_row.
  assert (Forall (fun kv : string * option string =>
                    within_limit (field_text (snd kv)))
                 (dict_of (combine fieldnames (map Some row)))) as Hd.
  { apply dict_of_Forall, Forall_forall. intros [k v] Hin.
    apply list_elem_of_In, in_combine_r, in_map_iff in Hin as (x & <- & Hx).
    rewrite Forall_forall in Hrow. apply Hrow. by apply list_elem_of_In. }
  destruct (length fieldnames <? length row)%nat; cbn [cells]; [done|].
  revert Hd. generalize (dict_of (combine fieldnames (map Some row))).
  induction (skipn (length row) fieldnames) as [|key keys IH];
    intros d Hd; [done|].
  cbn [fold_left]. apply IH. apply dict_set_Forall; [|done].
  apply within_limit_empty.
Qed.

Lemma dict_reader_fits rows :
  Forall (Forall within_limit) rows → Forall fits (dict_reader rows).
Proof.
  intros Hrows. destruct rows as [|fieldnames body]; [constructor|].
  inversion Hrows as [|? ? _ Hbody]; subst. cbn [dict_reader].
  apply Forall_forall. intros r Hin.
  apply list_elem_of_In, in_map_iff in Hin as (row & <- & Hrow).
  apply filter_In in Hrow as [Hrow _]. apply make_row_fits.
  rewrite Forall_forall in Hbody. apply Hbody. by apply list_elem_of_In.
Qed.

Lemma index_rows_fits rows : ∀ db0 db,
  Forall fits rows → Forall (fun kr => fits (snd kr)) db0 →
  index_rows db0 rows = Ok db → Forall (fun kr => fits (snd kr)) db.
Proof.
  induction rows as [|r rows IH]; intros db0 db Hrows Hdb0; simpl.
  - by intros [= <-].
  - inversion Hrows as [|? ? Hr Hrest]; subst.
    destruct (dict_get "file_path" (cells r)) as [key|]; [|done].
    apply IH; [done|]. by apply dict_set_Forall.
Qed.

(** Whatever [load_db] loads has its columns within the limit. *)
Lemma load_db_fits fs folder db :
  load_db fs folder = Ok db → Forall (fun kr => fits (snd kr)) db.
Proof.
  unfold load_db. destruct (fs !! csv_path folder) as [text|].
  - intros (rows & Hread & Hidx)%bind_Ok.
    apply (index_rows_fits (dict_reader rows) [] db); [|constructor|done].
    by apply dict_reader_fits, read_text_within with text.
  - intros [= <-]. constructor.
Qed.

Lemma keyed_set key r db :
  dict_get "file_path" (cells r) = Some key →
  keyed db → keyed (dict_set key r db).
Proof.
  intros Hkey [Hnd Hall]. split.
  - by apply dict_set_NoDup.
  - by apply dict_set_Forall.
Qed.

Lemma index_rows_keyed rows : ∀ db0 db,
  keyed db0 → index_rows db0 rows = Ok db → keyed db.
Proof.
  induction rows as [|r rows IH]; intros db0 db Hk; simpl.
  - by intros [= <-].
  - destruct (dict_get "file_path" (cells r)) as [key|] eqn:Hkey; [|done].
    apply IH. by apply keyed_set.
Qed.

Lemma load_db_keyed fs folder db : load_db fs folder = Ok db → keyed db.
Proof.
  unfold load_db. destruct (fs !! csv_path folder) as [text|].
  - intros (rows & _ & Hidx)%bind_Ok.
    apply (index_rows_keyed (dict_reader rows) [] db); [|done].
    split; constructor.
  - intros [= <-]. split; constructor.
Qed.

(** Rows that carry their keys are indexed under them. *)
Lemma index_rows_entries (l : table) : ∀ db0,
  Forall (fun kr => dict_get "file_path" (cells (snd kr)) = Some (fst kr)) l →
  index_rows db0 (map snd l) = Ok (fold_left set_entry l db0).
Proof.
  induction l as [|[k r] l IH]; intros db0 Hl; [reflexivity|].
  inversion Hl as [|? ? Hk Hl']; subst. simpl in Hk.
  cbn [map snd index_rows]. rewrite Hk. by rewrite IH.
Qed.

Lemma write_rows_conforms rows : ∀ out,
  Forall conforms rows →
  write_rows out rows = (out +:+ rows_text (map fields_of rows), Ok tt).
Proof.
  induction rows as [|r rows IH]; intros out Hall; simpl.
  - by rewrite app_nil_r_s.
  - inversion Hall as [|? ? Hr Hrows]; subst.
    rewrite dict_to_list_conforms by done.
    rewrite IH by done. by rewrite app_assoc_s.
Qed.

(** Loading the table that was written for [db]. *)
Lemma load_written fs folder (db : table) :
  keyed db → Forall (fun kr => conforms (snd kr)) db →
  Forall (fun kr => fits (snd kr)) db →
  load_db (<[csv_path folder :=
               header_text +:+ rows_text (map fields_of (dict_values db))]> fs)
          folder
  = Ok (map reread_entry db).
Proof.
  intros [Hnd Hkey] Hconf Hfits. unfold load_db. rewrite lookup_insert_eq.
  change (header_text +:+ rows_text (map fields_of (dict_values db)))
    with (rows_text (map Some CSV_H :: map fields_of (dict_values db))).
  rewrite read_rows_text.
  2:{ constructor; [apply header_within|].
      unfold dict_values. rewrite map_map. apply Forall_map.
      eapply Forall_impl; [exact Hfits|].
      intros kr Hkr. by apply fields_of_within. }
  cbn [mbind result_bind map dict_reader].
  assert (map field_text (map Some CSV_H) = CSV_H) as ->.
  { rewrite map_map. apply map_id. }
  unfold dict_values. rewrite !map_map.
  assert (List.filter (fun r => negb (is_blank r))
            (map (fun kr => map field_text (fields_of (snd kr))) db)
          = map (fun kr => map field_text (fields_of (snd kr))) db) as ->.
  { apply forallb_filter_id, forallb_forall. intros row Hin.
    apply in_map_iff in Hin as (kr & <- & _). reflexivity. }
  rewrite map_map.
  change (map (fun kr => make_row CSV_H (map field_text (fields_of (snd kr)))) db)
    with (map (fun kr => snd (reread_entry kr)) db).
  rewrite <- (map_map reread_entry snd).
  rewrite index_rows_entries.
  - f_equal. apply (fold_dict_set_NoDup (map reread_entry db) []).
    simpl. unfold dict_keys in *. rewrite map_map. exact Hnd.
  - apply Forall_forall. intros kr Hin.
    apply list_elem_of_In, in_map_iff in Hin as ([k r] & <- & Hin).
    rewrite Forall_forall in Hkey, Hconf.
    apply list_elem_of_In in Hin.
    specialize (Hkey _ Hin). specialize (Hconf _ Hin).
    unfold reread_entry. cbn [fst snd] in *.
    destruct (reread_equiv r Hconf) as [_ ->]. exact Hkey.
Qed.

(** What [save_db] does to a table that is in order. *)
Lemma save_db_spec fs folder r db :
  load_db fs folder = Ok db →
  Forall (fun kr => conforms (snd kr)) db →
  conforms r → fits r →
  ∃ fs',
    save_db fs folder r = (fs', Ok tt) ∧
    load_db fs' folder
    = Ok (map reread_entry (dict_set (file_path_of r) r db)).
Proof.
  intros Hload Hdb Hr Hfit. unfold save_db. rewrite Hload.
  rewrite (conforms_file_path r Hr).
  set (db' := dict_set (file_path_of r) r db).
  assert (Forall (fun kr => conforms (snd kr)) db') as Hdb'
    by by apply dict_set_Forall.
  assert (Forall (fun kr => fits (snd kr)) db') as Hfits'.
  { apply dict_set_Forall; [done|]. by eapply load_db_fits. }
  rewrite write_rows_conforms.
  - eexists. split; [reflexivity|]. apply load_written; [|done|done].
    apply keyed_set; [by apply conforms_file_path|by eapply load_db_keyed].
  - unfold dict_values. by apply Forall_map.
Qed.

(** The disk that [save_db] leaves for a table that is in order. *)
Lemma save_db_text (fs : gmap string string) folder r db :
  load_db fs folder = Ok db →
  Forall (fun kr => conforms (snd kr)) db →
  conforms r →
  save_db fs folder r
  = (<[csv_path folder := table_text (dict_set (file_path_of r) r db)]> fs,
     Ok tt).
Proof.
  intros Hload Hdb Hr. unfold save_db. rewrite Hload.
  rewrite (conforms_file_path r Hr).
  rewrite write_rows_conforms; [reflexivity|].
  unfold dict_values. apply Forall_map. by apply dict_set_Forall.
Qed.


Lemma get_reread_entries k (db : table) :
  dict_get k (map reread_entry db) = reread <$> dict_get k db.
Proof. apply (dict_get_map_values reread). Qed.




End record_store.


Lemma store_ok_empty folder : store_ok ∅ folder.
Proof. exists []. split; [reflexivity|constructor]. Qed.

Lemma record_A_conforms : conforms record_A.
Proof. apply (bool_decide_eq_true_1 (conforms _)). vm_compute. reflexivity. Qed.


Lemma record_A_fits : fits record_A.
Proof. apply (bool_decide_eq_true_1 (fits _)). vm_compute. reflexivity. Qed.












(** The two saves of the scenario, computed: both records are loaded
    back as they were saved. *)
Example save_two_records :
  load_db (fst (save_db (fst (save_db ∅ "/f" record_A)) "/f" record_B)) "/f"
  = Ok [(Some "/f/1.jpg", record_A); (Some "/f/2.jpg", record_B)].
Proof. vm_compute. reflexivity. Qed.

(** Where the table of the folder does not hold records of the schema,
    [save_db] raises when it rewrites the surplus row, and the table is
    left with its header only. *)
Example save_on_foreign_table :
  let fs : gmap string string := {[ csv_path "/f" := foreign_table ]} in
  snd (save_db fs "/f" record_A) = Raise ValueError ∧
  fst (save_db fs "/f" record_A) !! csv_path "/f" = Some header_text.
Proof. vm_compute. split; reflexivity. Qed.

(** * Further properties *)

(** ** Padding: structure, exhaustion, idempotence *)

Section padding_more.

Lemma seen_of_elem existing x :
  x ∈ seen_of existing ↔
  ∃ e, e ∈ existing ∧ strip e ≠ EmptyString ∧ x = lower (strip e).
Proof.
  induction existing as [|k rest IH]; simpl.
  - split; [set_solver|]. intros (e & He & _). by inversion He.
  - destruct (truthy k && truthy (strip k)) eqn:Hk.
    + apply andb_true_iff in Hk as [_ Hk]. apply truthy_true in Hk.
      rewrite elem_of_union, elem_of_singleton, IH. split.
      * intros [->|(e & He & Hne & ->)].
        -- exists k. split; [left|done].
        -- exists e. split; [by right|done].
      * intros (e & He & Hne & ->).
        apply elem_of_cons in He as [->|He]; [by left|right; eauto].
    + rewrite IH. split.
      * intros (e & He & Hne & ->). exists e. split; [by right|done].
      * intros (e & He & Hne & ->).
        apply elem_of_cons in He as [->|He]; [|eauto].
        exfalso. apply andb_false_iff in Hk as [Hk|Hk].
        -- destruct k; [by apply Hne|discriminate].
        -- apply Hne. destruct (strip k); [done|discriminate].
Qed.

Lemma seen_of_mono l l' x : x ∈ seen_of l → x ∈ seen_of (l ++ l').
Proof.
  rewrite !seen_of_elem. intros (e & He & Hne & ->).
  exists e. split; [|done]. apply elem_of_app. by left.
Qed.

(** The loop never appends when the list is full or every candidate is
    blank or already seen. *)
Lemma fill_loop_noop max_count seen out candidates :
  (max_count ≤ len out)%Z ∨
  (∀ k, k ∈ candidates →
        strip k = EmptyString ∨ lower (strip k) ∈ seen) →
  fill_loop max_count seen out candidates = out.
Proof.
  induction candidates as [|k rest IH]; intros H; [reflexivity|]. simpl.
  destruct (len out >=? max_count)%Z eqn:Hfull; [reflexivity|].
  destruct H as [H|H].
  { rewrite Z.geb_leb in Hfull. apply Z.leb_gt in Hfull. lia. }
  assert (negb (truthy (strip k)) || bool_decide (lower (strip k) ∈ seen) = true)
    as ->.
  { destruct (H k) as [Hb|Hs]; [by left| |].
    - by rewrite Hb.
    - rewrite (bool_decide_eq_true_2 _ Hs). apply orb_true_r. }
  apply IH. right. intros k' Hk'. apply H. by right.
Qed.

(** What a run of the loop leaves: a full list, or every candidate
    blank or represented in the output. *)
Lemma fill_loop_exhausts max_count candidates : ∀ seen out,
  (∀ x, x ∈ seen → x ∈ seen_of out) →
  let result := fill_loop max_count seen out candidates in
  (max_count ≤ len result)%Z ∨
  (∀ k, k ∈ candidates →
        strip k = EmptyString ∨ lower (strip k) ∈ seen_of result).
Proof.
  induction candidates as [|k rest IH]; intros seen out Hseen; simpl.
  - right. intros k Hk. by inversion Hk.
  - destruct (len out >=? max_count)%Z eqn:Hfull.
    { left. rewrite Z.geb_leb in Hfull. apply Z.leb_le in Hfull. lia. }
    destruct (truthy (strip k)) eqn:Hk; simpl.
    + case_bool_decide as Hin.
      * destruct (IH seen out Hseen) as [Hlen|Hall]; [by left|right].
        intros k' Hk'. apply elem_of_cons in Hk' as [->|Hk']; [|auto].
        right. destruct (fill_loop_prefix max_count seen out rest) as [added ->].
        by apply seen_of_mono, Hseen.
      * set (seen' := {[lower (strip k)]} ∪ seen).
        set (out' := out ++ [strip k]).
        assert (∀ x, x ∈ seen' → x ∈ seen_of out') as Hseen'.
        { intros x [->%elem_of_singleton|Hx]%elem_of_union.
          - apply seen_of_elem. exists (strip k).
            split; [apply elem_of_app; right; by left|].
            rewrite strip_idem. split; [by apply truthy_true|done].
          - by apply seen_of_mono, Hseen. }
        destruct (IH seen' out' Hseen') as [Hlen|Hall]; [by left|right].
        intros k' Hk'. apply elem_of_cons in Hk' as [->|Hk']; [|auto].
        right.
        destruct (fill_loop_prefix max_count seen' out' rest) as [added ->].
        apply seen_of_mono, Hseen'. unfold seen'. set_solver.
    + destruct (IH seen out Hseen) as [Hlen|Hall]; [by left|right].
      intros k' Hk'. apply elem_of_cons in Hk' as [->|Hk']; [|auto].
      left. destruct (strip k); [done|discriminate].
Qed.

(** The appended entries are trimmed candidates, in candidate order,
    none of them empty. *)
Lemma fill_loop_added max_count candidates : ∀ seen out,
  ∃ added,
    fill_loop max_count seen out candidates = out ++ added ∧
    added `sublist_of` map strip candidates ∧
    Forall (fun t => t ≠ EmptyString) added.
Proof.
  induction candidates as [|k rest IH]; intros seen out; simpl.
  - exists []. rewrite app_nil_r. split; [done|]. split; constructor.
  - destruct (len out >=? max_count)%Z.
    { exists []. rewrite app_nil_r. split; [done|].
      split; [apply sublist_nil_l|constructor]. }
    destruct (truthy (strip k)) eqn:Hk; simpl.
    + case_bool_decide.
      * destruct (IH seen out) as (added & -> & Hsub & Hne).
        exists added. split; [done|]. split; [by apply sublist_cons|done].
      * destruct (IH ({[lower (strip k)]} ∪ seen) (out ++ [strip k]))
          as (added & -> & Hsub & Hne).
        exists (strip k :: added). rewrite <- app_assoc. split; [done|].
        split; [by apply sublist_skip|]. constructor; [|done].
        by apply truthy_true.
    + destruct (IH seen out) as (added & -> & Hsub & Hne).
      exists added. split; [done|]. split; [by apply sublist_cons|done].
Qed.

End padding_more.


(** ** Keyword texts *)

Section text_facts.

Lemma contains_lstrip c s : contains c (lstrip s) = true → contains c s = true.
Proof.
  induction s as [|c' r IH]; simpl; [done|].
  destruct (is_space c'); [|done].
  intros H. rewrite (IH H). apply orb_true_r.
Qed.

Lemma contains_rstrip c s : contains c (rstrip s) = true → contains c s = true.
Proof.
  induction s as [|c' r IH]; simpl; [done|].
  destruct (is_space c' && is_empty (rstrip r)); simpl; [done|].
  intros [H|H]%orb_true_iff; [by rewrite H|].
  rewrite (IH H). apply orb_true_r.
Qed.

Lemma contains_strip c s : contains c (strip s) = true → contains c s = true.
Proof. intros H. by apply contains_lstrip, contains_rstrip. Qed.

Lemma split_nonempty sep s : split sep s ≠ [].
Proof.
  destruct s as [|c r]; simpl; [done|].
  destruct (Ascii.eqb c sep); [done|]. by destruct (split sep r).
Qed.

Lemma split_elem_contains sep c s w :
  w ∈ split sep s → contains c w = true → contains c s = true.
Proof.
  revert w. induction s as [|c' r IH]; intros w; simpl.
  - intros ->%list_elem_of_singleton. done.
  - destruct (Ascii.eqb c' sep).
    + intros [->|Hw]%elem_of_cons Hc; [done|].
      rewrite (IH w Hw Hc). apply orb_true_r.
    + destruct (split sep r) as [|w0 ws] eqn:Hs.
      * by destruct (split_nonempty sep r).
      * intros [->|Hw]%elem_of_cons Hc.
        -- simpl in Hc. apply orb_true_iff in Hc as [Hc|Hc]; [by rewrite Hc|].
           rewrite (IH w0); [apply orb_true_r|by left|done].
        -- rewrite (IH w); [apply orb_true_r|by right|done].
Qed.

Lemma split_elem_no_sep sep s w : w ∈ split sep s → contains sep w = false.
Proof.
  revert w. induction s as [|c' r IH]; intros w; simpl.
  - intros ->%list_elem_of_singleton. done.
  - destruct (Ascii.eqb c' sep) eqn:Hc.
    + intros [->|Hw]%elem_of_cons; [done|auto].
    + destruct (split sep r) as [|w0 ws] eqn:Hs.
      * by destruct (split_nonempty sep r).
      * intros [->|Hw]%elem_of_cons.
        -- simpl. rewrite Hc. simpl. apply IH. by left.
        -- apply IH. by right.
Qed.

Lemma re_sub_noise_clean c raw :
  is_noise c = true → contains c (re_sub_noise raw) = false.
Proof.
  intros Hc. induction raw as [|c' r IH]; simpl; [done|].
  destruct (is_noise c') eqn:Hc'; [done|]. simpl. rewrite IH.
  destruct (Ascii.eqb_spec c' c) as [->|]; [congruence|done].
Qed.

Lemma contains_false_strip c s : contains c s = false → contains c (strip s) = false.
Proof.
  intros H. destruct (contains c (strip s)) eqn:E; [|done].
  apply contains_strip in E. congruence.
Qed.

(** The entries of a trimmed, filtered list. *)
Lemma elem_of_trimmed k (l : list string) :
  k ∈ map strip (List.filter (fun x => truthy (strip x)) l) →
  ∃ x, x ∈ l ∧ k = strip x ∧ k ≠ EmptyString.
Proof.
  intros (x & -> & Hx)%list_elem_of_fmap.
  apply list_elem_of_In, filter_In in Hx as [Hx Ht].
  exists x. split; [by apply list_elem_of_In|]. split; [done|].
  by apply truthy_true.
Qed.

Lemma parse_keywords_storable raw k :
  k ∈ parse_keywords raw →
  storable k ∧ ∀ c, is_noise c = true → contains c k = false.
Proof.
  intros (x & Hx & -> & Hne)%elem_of_trimmed. split.
  - split; [done|]. split; [apply strip_idem|].
    apply contains_false_strip. by eapply split_elem_no_sep.
  - intros c Hc. apply contains_false_strip.
    destruct (contains c x) eqn:E; [|done].
    apply (split_elem_contains _ _ _ _ Hx) in E.
    by rewrite re_sub_noise_clean in E.
Qed.

Lemma split_no_sep sep s : contains sep s = false → split sep s = [s].
Proof.
  induction s as [|c r IH]; simpl; [done|].
  intros [Hc Hr]%orb_false_iff. rewrite Hc, (IH Hr). done.
Qed.

Lemma split_app_sep sep a b :
  contains sep a = false →
  split sep (a +:+ String sep b) = a :: split sep b.
Proof.
  induction a as [|c r IH]; simpl.
  - intros _. by rewrite Ascii.eqb_refl.
  - intros [Hc Hr]%orb_false_iff.
    change (String c r +:+ String sep b) with (String c (r +:+ String sep b)).
    simpl. rewrite Hc, (IH Hr). done.
Qed.

Lemma contains_app c a b :
  contains c (a +:+ b) = contains c a || contains c b.
Proof.
  induction a as [|c' r IH]; [done|].
  change (String c' r +:+ b) with (String c' (r +:+ b)).
  simpl. rewrite IH. by rewrite orb_assoc.
Qed.

(** A space in front of a trimmed word is trimmed away. *)
Lemma strip_space_cons k : strip (String " " k) = strip k.
Proof. reflexivity. Qed.

Lemma kw_split_join_from p k ks :
  p = EmptyString ∨ p = " " →
  Forall storable (k :: ks) →
  kw_split (p +:+ kw_join (k :: ks)) = k :: ks.
Proof.
  intros Hp Hall. revert p k Hp Hall.
  induction ks as [|k' ks IH]; intros p k Hp Hall.
  - inversion Hall as [|? ? (Hne & Hs & Hc) _]; subst.
    unfold kw_split, kw_join. cbn [join].
    assert (strip (p +:+ k) = k) as Hpk by (by destruct Hp as [-> | ->]).
    rewrite split_no_sep.
    + cbn [List.filter]. rewrite Hpk.
      assert (truthy k = true) as -> by by apply truthy_true.
      cbn [map]. by rewrite Hpk.
    + rewrite contains_app, Hc. by destruct Hp as [-> | ->].
  - inversion Hall as [|? ? (Hne & Hs & Hc) Hrest]; subst.
    unfold kw_split, kw_join.
    change (join ", " (k :: k' :: ks))
      with (k +:+ String "," (" " +:+ join ", " (k' :: ks))).
    assert (strip (p +:+ k) = k) as Hpk by (by destruct Hp as [-> | ->]).
    assert (p +:+ k +:+ String "," (" " +:+ join ", " (k' :: ks))
            = (p +:+ k) +:+ String "," (" " +:+ join ", " (k' :: ks))) as ->.
    { by destruct Hp as [-> | ->]. }
    rewrite split_app_sep.
    + cbn [List.filter]. rewrite Hpk.
      assert (truthy k = true) as -> by by apply truthy_true.
      cbn [map]. rewrite Hpk. f_equal.
      apply (IH " " k'); [by right|done].
    + rewrite contains_app, Hc. by destruct Hp as [-> | ->].
Qed.

Lemma kw_split_join words : Forall storable words → kw_split (kw_join words) = words.
Proof.
  destruct words as [|k ks]; [reflexivity|]. intros Hall.
  apply (kw_split_join_from EmptyString k ks); [by left|done].
Qed.

End text_facts.

(** ** Entry rows and vocabulary edits *)

Section fields_facts.

Lemma nth_seq_map {A} (d : A) n : ∀ l : list A,
  map (fun i => nth i l d) (seq 0 n) = firstn n l ++ repeat d (n - length l).
Proof.
  induction n as [|n IH]; intros l; [reflexivity|].
  rewrite <- cons_seq, <- seq_shift. cbn [map]. rewrite map_map.
  destruct l as [|x l]; cbn [nth firstn length Nat.sub app].
  - specialize (IH []). rewrite firstn_nil in IH. cbn [length app] in IH.
    rewrite Nat.sub_0_r in IH. cbn [repeat]. f_equal.
    etrans; [|exact IH]. apply map_ext. by intros [|i].
  - f_equal. apply IH.
Qed.

Lemma gkw_app a b : gkw (a ++ b) = gkw a ++ gkw b.
Proof. unfold gkw. by rewrite List.filter_app, map_app. Qed.

Lemma gkw_blank n : gkw (repeat EmptyString n) = [].
Proof. induction n as [|n IH]; [reflexivity|exact IH]. Qed.

Lemma firstn_min_max {A} (l l' : list A) n :
  firstn (Nat.min (Nat.max (length l) (length l')) n) l = firstn n l.
Proof.
  destruct (Nat.le_gt_cases n (Nat.max (length l) (length l'))) as [H|H].
  - by rewrite Nat.min_r.
  - rewrite Nat.min_l by lia. rewrite !firstn_all2 by lia. done.
Qed.

Lemma gkw_storable words : Forall storable words → gkw words = words.
Proof.
  induction 1 as [|k ks (Hne & Hs & _) _ IH]; [reflexivity|].
  unfold gkw in *. cbn [List.filter]. rewrite Hs.
  assert (truthy k = true) as -> by by apply truthy_true.
  cbn [map]. by rewrite Hs, IH.
Qed.

Lemma fill_kw_lengths kw_en kw_tr max_kw :
  length (fst (fill_kw kw_en kw_tr max_kw))
  = length (snd (fill_kw kw_en kw_tr max_kw)) ∧
  (length (fst (fill_kw kw_en kw_tr max_kw)) ≤ max_kw)%nat.
Proof.
  unfold fill_kw. cbn [fst snd]. rewrite !length_map, !length_seq.
  split; [done|lia].
Qed.

Lemma gkw_fill_kw_en kw_en kw_tr max_kw :
  gkw (fst (fill_kw kw_en kw_tr max_kw)) = gkw (firstn max_kw kw_en).
Proof.
  unfold fill_kw. cbn [fst]. rewrite nth_seq_map, gkw_app, gkw_blank.
  rewrite app_nil_r, firstn_min_max. done.
Qed.

Lemma gkw_fill_kw_tr kw_en kw_tr max_kw :
  gkw (snd (fill_kw kw_en kw_tr max_kw)) = gkw (firstn max_kw kw_tr).
Proof.
  unfold fill_kw. cbn [snd]. rewrite nth_seq_map, gkw_app, gkw_blank.
  rewrite app_nil_r, Nat.max_comm, firstn_min_max. done.
Qed.

End fields_facts.

Section vocabulary_facts.

Lemma lower_char_idem c : lower_char (lower_char c) = lower_char c.
Proof. destruct c as [[] [] [] [] [] [] [] []]; reflexivity. Qed.

Lemma lower_idem s : lower (lower s) = lower s.
Proof.
  induction s as [|c r IH]; simpl; [done|]. by rewrite lower_char_idem, IH.
Qed.

Lemma apply_istock_map_istock d entries :
  apply_istock d entries = map_istock d entries.
Proof.
  unfold apply_istock, map_istock. apply map_ext. intros e.
  rewrite strip_lower. by destruct (d !! lower (strip e)).
Qed.

Lemma map_istock_after_add d general istock k :
  strip general ≠ EmptyString → strip istock ≠ EmptyString →
  map_istock (istock_add d general istock) [k]
  = if decide (lower (strip k) = lower (strip general))
    then [strip istock] else map_istock d [k].
Proof.
  intros Hg Hi. unfold istock_add, map_istock.
  assert (truthy (strip general) && truthy (strip istock) = true) as ->.
  { apply andb_true_iff. split; by apply truthy_true. }
  cbn [map]. rewrite strip_lower.
  destruct (decide (lower (strip k) = lower (strip general))) as [->|Hne].
  - by rewrite lookup_insert_eq.
  - by rewrite lookup_insert_ne.
Qed.

Lemma istock_del_add d general istock :
  d !! lower (strip general) = None →
  istock_del (istock_add d general istock) (lower (strip general)) = d.
Proof.
  intros Hfresh. unfold istock_del, istock_add. rewrite lower_idem.
  destruct (truthy (strip general) && truthy (strip istock)).
  - by rewrite delete_insert_id.
  - by apply delete_id.
Qed.

Lemma map_istock_after_del d gen k :
  strip (lower k) = lower gen →
  map_istock (istock_del d gen) [k] = [k].
Proof.
  intros Hk. unfold map_istock, istock_del. cbn [map].
  by rewrite Hk, lookup_delete_eq.
Qed.

End vocabulary_facts.

(** ** Wheel events, file names, the metadata response *)

Section interface_facts.

Lemma scroll_delta_against event :
  ((0 < event_delta event → scroll_delta event ≤ -1) ∧
   (event_delta event < 0 → 1 ≤ scroll_delta event) ∧
   (∀ n, event_delta event = 120 * n → n ≠ 0 → scroll_delta event = - n))%Z.
Proof.
  unfold scroll_delta. destruct event as [d num]. cbn [event_delta event_num].
  assert (∀ n, d = 120 * n → d / 120 = n)%Z as Hdiv.
  { intros n ->. rewrite Z.mul_comm. apply Z.div_mul. lia. }
  destruct (Z.eqb_spec d 0) as [->|Hd]; cbn [negb].
  { split; [lia|]. split; [lia|]. intros n Hn Hn0. lia. }
  destruct (Z.eqb_spec (d / 120) 0) as [Hs|Hs]; cbn [negb].
  - destruct (Z.gtb_spec d 0) as [Hp|Hp].
    + split; [lia|]. split; [lia|]. intros n Hn Hn0.
      rewrite (Hdiv n Hn) in Hs. lia.
    + split; [lia|]. split; [lia|]. intros n Hn Hn0.
      rewrite (Hdiv n Hn) in Hs. lia.
  - split; [|split].
    + intros Hp. assert (0 <= d / 120)%Z by (apply Z.div_pos; lia). lia.
    + intros Hn. assert (d / 120 < 0)%Z by (apply Z.div_lt_upper_bound; lia). lia.
    + intros n Hn Hn0. rewrite (Hdiv n Hn). lia.
Qed.

Lemma scroll_delta_zero event :
  scroll_delta event = 0%Z ↔
  event_delta event = 0%Z ∧ event_num event ≠ 4%Z ∧ event_num event ≠ 5%Z.
Proof.
  pose proof (scroll_delta_against event) as (Hp & Hn & _).
  split.
  - intros H0.
    assert (event_delta event = 0)%Z as Hd by lia.
    split; [done|]. revert H0. unfold scroll_delta. rewrite Hd. cbn.
    destruct (Z.eqb_spec (event_num event) 4); [done|].
    destruct (Z.eqb_spec (event_num event) 5); done.
  - intros (Hd & H4 & H5). unfold scroll_delta. rewrite Hd. cbn.
    destruct (Z.eqb_spec (event_num event) 4); [done|].
    destruct (Z.eqb_spec (event_num event) 5); done.
Qed.

Lemma length_append (s t : string) :
  String.length (s +:+ t) = (String.length s + String.length t)%nat.
Proof.
  induction s as [|c s IH]; [reflexivity|].
  change (String c s +:+ t) with (String c (s +:+ t)). simpl. by rewrite IH.
Qed.

Lemma length_str_take n s : (String.length (str_take n s) ≤ n)%nat.
Proof.
  revert s. induction n as [|n IH]; intros [|c r]; simpl; try lia.
  specialize (IH r). lia.
Qed.

Lemma str_take_prefix n s : ∃ rest, s = str_take n s +:+ rest.
Proof.
  revert s. induction n as [|n IH]; intros s.
  - exists s. by destruct s.
  - destruct s as [|c r]; [by exists EmptyString|].
    destruct (IH r) as [rest Hr]. exists rest. simpl.
    change (String c (str_take n r) +:+ rest)
      with (String c (str_take n r +:+ rest)). by rewrite <- Hr.
Qed.

Lemma display_name_bound name :
  (String.length (display_name name) ≤ 28)%nat ∧
  ((String.length name ≤ 28)%nat → display_name name = name) ∧
  ((28 < String.length name)%nat →
   ∃ rest, display_name name = str_take 25 name +:+ "..." ∧
           name = str_take 25 name +:+ rest).
Proof.
  unfold display_name.
  destruct (Nat.leb_spec (String.length name) 28) as [Hle|Hgt].
  - split; [done|]. split; [done|lia].
  - split.
    + rewrite length_append. pose proof (length_str_take 25 name).
      change (String.length "...") with 3%nat. lia.
    + split; [lia|]. intros _.
      destruct (str_take_prefix 25 name) as [rest Hr]. eauto.
Qed.

End interface_facts.

Section metadata_facts.

Lemma from_first_app c pre s :
  contains c pre = false →
  from_first c (pre +:+ String c s) = Some (String c s).
Proof.
  induction pre as [|c' r IH]; simpl.
  - intros _. by rewrite Ascii.eqb_refl.
  - intros [Hc Hr]%orb_false_iff.
    change (String c' r +:+ String c s) with (String c' (r +:+ String c s)).
    simpl. rewrite Hc. auto.
Qed.

Lemma upto_last_none c s : contains c s = false → upto_last c s = None.
Proof.
  induction s as [|c' r IH]; simpl; [done|].
  intros [Hc Hr]%orb_false_iff. by rewrite (IH Hr), Hc.
Qed.

Lemma upto_last_app c body post :
  contains c post = false →
  upto_last c (body +:+ String c post) = Some (body +:+ String c EmptyString).
Proof.
  intros Hpost. induction body as [|c' r IH].
  - change (EmptyString +:+ String c post) with (String c post). simpl.
    by rewrite (upto_last_none c post Hpost), Ascii.eqb_refl.
  - change (String c' r +:+ String c post)
      with (String c' (r +:+ String c post)). simpl. by rewrite IH.
Qed.

Lemma search_braces_wrapped pre body post :
  contains "{"%char pre = false → contains "}"%char post = false →
  search_braces (pre +:+ String "{" (body +:+ String "}" post))
  = Some (String "{" (body +:+ String "}" EmptyString)).
Proof.
  intros Hpre Hpost. unfold search_braces.
  rewrite from_first_app by done.
  change (String "{" (body +:+ String "}" post))
    with (String "{" body +:+ String "}" post).
  by rewrite upto_last_app.
Qed.

Lemma from_first_Some c s m :
  from_first c s = Some m →
  ∃ pre r, s = pre +:+ m ∧ contains c pre = false ∧ m = String c r.
Proof.
  revert m. induction s as [|c' r IH]; intros m; simpl; [done|].
  destruct (Ascii.eqb_spec c' c) as [->|Hne].
  - intros [= <-]. by exists EmptyString, r.
  - intros (pre & r' & -> & Hpre & ->)%IH.
    exists (String c' pre), r'. split; [done|]. split; [|done].
    simpl. rewrite Hpre. by apply Ascii.eqb_neq in Hne as ->.
Qed.

Lemma upto_last_Some c s m :
  upto_last c s = Some m →
  ∃ body post, m = body +:+ String c EmptyString ∧
               s = m +:+ post ∧ contains c post = false.
Proof.
  revert m. induction s as [|c' r IH]; intros m; simpl; [done|].
  destruct (upto_last c r) as [m'|] eqn:Hm.
  - intros [= <-]. destruct (IH m' eq_refl) as (body & post & -> & -> & Hpost).
    exists (String c' body), post. done.
  - destruct (Ascii.eqb_spec c' c) as [->|Hne]; [|done].
    intros [= <-]. exists EmptyString, r. split; [done|]. split; [done|].
    clear IH. induction r as [|c2 r IH]; [done|]. simpl in *.
    destruct (upto_last c r); [done|].
    destruct (Ascii.eqb c2 c); [done|]. auto.
Qed.

Lemma search_braces_Some raw m :
  search_braces raw = Some m →
  ∃ pre body post,
    raw = pre +:+ m +:+ post ∧
    m = String "{" (body +:+ String "}" EmptyString) ∧
    contains "{"%char pre = false ∧ contains "}"%char post = false.
Proof.
  unfold search_braces.
  destruct (from_first "{"%char raw) as [m0|] eqn:Hm0; [|done].
  apply from_first_Some in Hm0 as (pre & r & -> & Hpre & ->).
  intros (body & post & -> & Heq & Hpost)%upto_last_Some.
  destruct body as [|c body].
  { discriminate Heq. }
  injection Heq as <- Hr.
  exists pre, body, post. split; [|done].
  f_equal. change (String "{" body +:+ String "}" EmptyString +:+ post)
    with (String "{" ((body +:+ String "}" EmptyString) +:+ post)).
  by rewrite Hr.
Qed.

Lemma search_braces_None raw :
  contains "{"%char raw = false ∨ contains "}"%char raw = false →
  search_braces raw = None.
Proof.
  unfold search_braces. intros [H|H].
  - assert (from_first "{"%char raw = None) as ->; [|done].
    induction raw as [|c r IH]; simpl in *; [done|].
    apply orb_false_iff in H as [Hc Hr]. rewrite Hc. auto.
  - destruct (from_first "{"%char raw) as [m|] eqn:Hm; [|done].
    apply from_first_Some in Hm as (pre & r & -> & _ & ->).
    apply upto_last_none. rewrite contains_app in H.
    by apply orb_false_iff in H as [_ H].
Qed.

End metadata_facts.

(** ** Thumbnails: cache and centring *)

Section thumbnails_more.
Variable wd : world.

(** A request that is not served from the cache and succeeds: the
    picture it pasted, and the cache afterwards. *)
Lemma get_thumb_miss ch file_path w h canvas ch' :
  ch !! cache_key wd file_path w h = None →
  get_thumb wd ch file_path w h = Ok (canvas, ch') →
  ∃ img ground,
    Image_new w h BG = Ok ground ∧
    canvas = paste ground img
                   ((w - width img) / 2) ((h - height img) / 2) ∧
    ch' = <[cache_key wd file_path w h := canvas]> ch.
Proof.
  unfold get_thumb. intros ->.
  intros (img0 & _ & (img & _ & (ground & Hnew & Hrest)%bind_Ok)%bind_Ok)%bind_Ok.
  destruct (cache_writable wd _); [|discriminate].
  injection Hrest as <- <-. eauto.
Qed.

Lemma get_thumb_cache_grows ch file_path w h canvas ch' :
  get_thumb wd ch file_path w h = Ok (canvas, ch') →
  ch ⊆ ch' ∧
  ∀ key, key ≠ cache_key wd file_path w h → ch' !! key = ch !! key.
Proof.
  destruct (ch !! cache_key wd file_path w h) as [cached|] eqn:Hc.
  - rewrite (get_thumb_hit wd ch file_path w h cached Hc).
    intros [= <- <-]. done.
  - intros (img & ground & _ & _ & ->)%get_thumb_miss; [|done]. split.
    + by apply insert_subseteq.
    + intros key Hne. by rewrite lookup_insert_ne.
Qed.

Lemma get_thumb_repeat ch file_path w h canvas ch' :
  get_thumb wd ch file_path w h = Ok (canvas, ch') →
  get_thumb wd ch' file_path w h = Ok (canvas, ch').
Proof. intros H. by apply get_thumb_hit, get_thumb_cached with ch. Qed.

(** The margins of a picture centred in a box it fits. *)
Lemma centred_margins (box size : Z) :
  (size ≤ box →
   0 ≤ (box - size) / 2 ∧
   (box - size) / 2 ≤ box - size - (box - size) / 2 ∧
   box - size - (box - size) / 2 ≤ (box - size) / 2 + 1)%Z.
Proof.
  intros H. pose proof (Z.div_mod (box - size) 2 ltac:(lia)).
  pose proof (Z.mod_pos_bound (box - size) 2 ltac:(lia)). lia.
Qed.

Lemma get_thumb_centred ch file_path w h canvas ch' :
  ch !! cache_key wd file_path w h = None →
  get_thumb wd ch file_path w h = Ok (canvas, ch') →
  width canvas = w ∧ height canvas = h ∧
  ∃ img dx dy,
    (width img ≤ w → 0 ≤ dx ≤ w - width img - dx ∧ w - width img - dx ≤ dx + 1)%Z ∧
    (height img ≤ h → 0 ≤ dy ≤ h - height img - dy ∧ h - height img - dy ≤ dy + 1)%Z ∧
    ∀ x y,
      pixel canvas x y
      = if ((dx <=? x) && (x <? dx + width img) &&
            (dy <=? y) && (y <? dy + height img))%Z
        then pixel img (x - dx) (y - dy) else BG.
Proof.
  intros Hmiss (img & ground & Hnew & -> & _)%get_thumb_miss; [|done].
  apply Image_new_Ok in Hnew as (Hgw & Hgh & Hgp).
  split; [done|]. split; [done|].
  exists img, ((w - width img) / 2)%Z, ((h - height img) / 2)%Z.
  split; [|split].
  - intros H. pose proof (centred_margins w (width img) H). lia.
  - intros H. pose proof (centred_margins h (height img) H). lia.
  - intros x y. cbn [paste pixel]. by rewrite Hgp.
Qed.

End thumbnails_more.

(** ** The record table: keys, repeated saves, foreign rows *)

Section store_more.

Lemma dict_set_idem {K V} `{EqDecision K} (k : K) (v : V) (d : list (K * V)) :
  dict_set k v (dict_set k v d) = dict_set k v d.
Proof.
  induction d as [|[k' v'] d IH]; simpl.
  - by rewrite decide_True.
  - destruct (decide (k' = k)) as [->|Hne]; simpl.
    + by rewrite decide_True.
    + rewrite decide_False by done. by rewrite IH.
Qed.

Lemma dict_keys_reread (db : table) :
  dict_keys (map reread_entry db) = dict_keys db.
Proof. unfold dict_keys. rewrite map_map. reflexivity. Qed.


Lemma fields_of_reread r : conforms r → fields_of (reread r) = fields_of r.
Proof.
  intros Hr. unfold fields_of. apply map_ext. intros key.
  by destruct (reread_equiv r Hr) as [_ ->].
Qed.

Lemma fields_of_set_reread key r (db : table) :
  Forall (fun kr => conforms (snd kr)) db →
  map fields_of (dict_values (dict_set key r (map reread_entry db)))
  = map fields_of (dict_values (dict_set key r db)).
Proof.
  induction 1 as [|[k x] db Hx Hdb IH]; [reflexivity|].
  cbn [map reread_entry fst snd dict_set].
  destruct (decide (k = key)) as [->|Hne]; cbn [dict_values map snd].
  - f_equal. unfold dict_values. rewrite !map_map.
    apply map_ext_Forall. eapply Forall_impl; [exact Hdb|].
    intros [k' x'] Hx'. cbn. by apply fields_of_reread.
  - rewrite fields_of_reread by done. f_equal. exact IH.
Qed.

Lemma save_db_twice (fs : gmap string string) folder r :
  store_ok fs folder → conforms r → fits r →
  save_db (fst (save_db fs folder r)) folder r = save_db fs folder r.
Proof.
  intros (db & Hload & Hdb) Hr Hfit.
  destruct (save_db_spec fs folder r db Hload Hdb Hr Hfit)
    as (fs' & Hsave & Hl).
  rewrite (save_db_text fs folder r db Hload Hdb Hr) in Hsave |- *.
  injection Hsave as <-. cbn [fst].
  assert (Forall (fun kr => conforms (snd kr))
            (dict_set (file_path_of r) r db)) as Hdb1
    by by apply dict_set_Forall.
  rewrite (save_db_text _ folder r _ Hl); [|
    apply Forall_forall; intros kr Hin;
    apply list_elem_of_In, in_map_iff in Hin as (kr0 & <- & _);
    apply reread_conforms | done].
  unfold table_text. rewrite fields_of_set_reread by done.
  rewrite dict_set_idem. by rewrite insert_insert_eq.
Qed.


Lemma save_db_no_file_path (fs : gmap string string) folder r :
  dict_get "file_path" (cells r) = None →
  fst (save_db fs folder r) = fs ∧
  ∃ e, snd (save_db fs folder r) = Raise e.
Proof.
  intros Hr. unfold save_db. destruct (load_db fs folder) as [db|e].
  - rewrite Hr. eauto.
  - eauto.
Qed.



(** The table written for [db] is loaded back as [db]. *)
Lemma written_table_loads (fs : gmap string string) folder (db : table) :
  keyed db →
  Forall (fun kr => conforms (snd kr)) db →
  Forall (fun kr => fits (snd kr)) db →
  ∃ text db',
    write_rows header_text (dict_values db) = (text, Ok tt) ∧
    load_db (<[csv_path folder := text]> fs) folder = Ok db' ∧
    dict_keys db' = dict_keys db ∧
    ∀ k, option_Forall2 row_equiv (dict_get k db') (dict_get k db).
Proof.
  intros Hk Hc Hf. eexists _, _. split.
  { apply write_rows_conforms. unfold dict_values. by apply Forall_map. }
  split; [by apply load_written|]. split; [apply dict_keys_reread|].
  intros k. rewrite get_reread_entries.
  destruct (dict_get k db) as [r0|] eqn:Hg; constructor.
  apply reread_equiv. apply dict_get_elem in Hg.
  rewrite Forall_forall in Hc. apply (Hc _ Hg).
Qed.

End store_more.

(** ** The properties *)

(** X1: the result of padding is [existing], in its order, followed by
    entries that are trimmed candidates, in candidate order, none of
    them empty. *)
Theorem fill_appends_trimmed_candidates existing max_count candidates :
  ∃ added,
    fill_keywords_to_max existing max_count candidates = existing ++ added ∧
    added `sublist_of` map strip candidates ∧
    Forall (fun t => t ≠ EmptyString) added.
Proof. apply fill_loop_added. Qed.

(** X2: padding the padded list again with the same cap and candidates
    changes nothing. *)
Theorem fill_idempotent existing max_count candidates :
  fill_keywords_to_max
    (fill_keywords_to_max existing max_count candidates) max_count candidates
  = fill_keywords_to_max existing max_count candidates.
Proof.
  unfold fill_keywords_to_max at 1. apply fill_loop_noop.
  apply (fill_loop_exhausts max_count candidates (seen_of existing) existing).
  auto.
Qed.

(** X3: padding stops short of the cap only when the candidates are
    exhausted: if the result is shorter than [max_count], every
    candidate that is not blank is in the result, up to case and
    surrounding whitespace. *)
Theorem fill_stops_only_when_exhausted existing max_count candidates k :
  (len (fill_keywords_to_max existing max_count candidates) < max_count)%Z →
  k ∈ candidates → strip k ≠ EmptyString →
  ∃ e, e ∈ fill_keywords_to_max existing max_count candidates ∧
       lower (strip e) = lower (strip k).
Proof.
  intros Hlen Hk Hne.
  destruct (fill_loop_exhausts max_count candidates (seen_of existing) existing)
    as [Hfull|Hall]; [auto| |].
  - unfold fill_keywords_to_max in Hlen. lia.
  - destruct (Hall k Hk) as [?|Hin]; [done|].
    apply seen_of_elem in Hin as (e & He & _ & Heq). eauto.
Qed.

Lemma fill_stops_only_when_exhausted_witness :
  (len (fill_keywords_to_max ["Sunset"] 5 ["beach"; " Beach "]) < 5)%Z ∧
  " Beach " ∈ ["beach"; " Beach "] ∧
  strip " Beach " ≠ EmptyString ∧
  ∃ e, e ∈ fill_keywords_to_max ["Sunset"] 5 ["beach"; " Beach "] ∧
       lower (strip e) = lower (strip " Beach ").
Proof.
  assert (len (fill_keywords_to_max ["Sunset"] 5 ["beach"; " Beach "]) < 5)%Z
    as H1 by (vm_compute; reflexivity).
  assert (" Beach " ∈ ["beach"; " Beach "]) as H2 by (right; left).
  assert (strip " Beach " ≠ EmptyString) as H3 by (vm_compute; discriminate).
  split; [exact H1|]. split; [exact H2|]. split; [exact H3|].
  exact (fill_stops_only_when_exhausted _ _ _ _ H1 H2 H3).
Defined.

(** X4: every keyword that [api_keywords] returns is not empty, has no
    whitespace at its ends, and contains no comma and none of the
    characters the clean-up removes (quotes, star, hyphen, newline,
    digit, full stop). *)
Theorem api_keywords_storable response kws k :
  api_keywords response = Ok kws → k ∈ kws →
  storable k ∧ ∀ c, is_noise c = true → contains c k = false.
Proof.
  intros (raw & _ & ->)%api_keywords_Ok Hk.
  apply parse_keywords_storable with raw.
  eapply elem_of_sublist; [exact Hk|apply sublist_take].
Qed.

Lemma api_keywords_storable_witness :
  api_keywords (Ok "1. dog, 2 cats") = Ok ["dog"; "cats"] ∧
  "cats" ∈ ["dog"; "cats"] ∧
  storable "cats" ∧ ∀ c, is_noise c = true → contains c "cats" = false.
Proof.
  assert (api_keywords (Ok "1. dog, 2 cats") = Ok ["dog"; "cats"]) as H1
    by (vm_compute; reflexivity).
  assert ("cats" ∈ ["dog"; "cats"]) as H2 by (right; left).
  split; [exact H1|]. split; [exact H2|].
  exact (api_keywords_storable _ _ _ H1 H2).
Defined.

(** X5: the keyword column of a record is read back as the keywords it
    was joined from, when each keyword is not empty, trimmed and without
    a comma. *)
Theorem kw_split_join_round_trip words :
  Forall storable words → kw_split (kw_join words) = words.
Proof. apply kw_split_join. Qed.

Lemma kw_split_join_round_trip_witness :
  Forall storable ["wind turbine"; "sunset"] ∧
  kw_split (kw_join ["wind turbine"; "sunset"]) = ["wind turbine"; "sunset"].
Proof.
  assert (Forall storable ["wind turbine"; "sunset"]) as H.
  { apply (bool_decide_eq_true_1 (Forall storable _)). vm_compute. reflexivity. }
  split; [exact H|]. exact (kw_split_join_round_trip _ H).
Defined.

(** X6: the rows that [_fill_kw] shows are as many in both columns and
    never more than the platform maximum, and the keywords collected
    from them are the first [max_kw] keywords, trimmed, without the
    blank ones. *)
Theorem fill_kw_collects kw_en kw_tr max_kw :
  length (fst (fill_kw kw_en kw_tr max_kw))
  = length (snd (fill_kw kw_en kw_tr max_kw)) ∧
  (length (fst (fill_kw kw_en kw_tr max_kw)) ≤ max_kw)%nat ∧
  gkw (fst (fill_kw kw_en kw_tr max_kw)) = gkw (firstn max_kw kw_en) ∧
  gkw (snd (fill_kw kw_en kw_tr max_kw)) = gkw (firstn max_kw kw_tr).
Proof.
  destruct (fill_kw_lengths kw_en kw_tr max_kw) as [H1 H2].
  split; [exact H1|]. split; [exact H2|].
  split; [apply gkw_fill_kw_en|apply gkw_fill_kw_tr].
Qed.

(** X7: a keyword list that [api_keywords] returned and that is within
    the platform maximum comes back unchanged after it is shown in the
    entries, collected and joined into the column of the record, and
    split again when the record is loaded. *)
Theorem generated_keywords_survive_reload response kws kw_tr max_kw :
  api_keywords response = Ok kws → (length kws ≤ max_kw)%nat →
  kw_split (kw_join (gkw (fst (fill_kw kws kw_tr max_kw)))) = kws.
Proof.
  intros Hkws Hlen.
  assert (Forall storable kws) as Hst.
  { apply Forall_forall. intros k Hk.
    destruct (api_keywords_Ok _ _ Hkws) as (raw & _ & ->).
    apply (parse_keywords_storable raw).
    eapply elem_of_sublist; [exact Hk|apply sublist_take]. }
  rewrite gkw_fill_kw_en, firstn_all2 by done.
  rewrite gkw_storable by done. by apply kw_split_join.
Qed.

Lemma generated_keywords_survive_reload_witness :
  api_keywords (Ok "wind turbine, sunset") = Ok ["wind turbine"; "sunset"] ∧
  (length ["wind turbine"; "sunset"] ≤ 50)%nat ∧
  kw_split (kw_join (gkw (fst (fill_kw ["wind turbine"; "sunset"]
                                       ["ruzgar turbini"] 50))))
  = ["wind turbine"; "sunset"].
Proof.
  assert (api_keywords (Ok "wind turbine, sunset")
          = Ok ["wind turbine"; "sunset"]) as H1 by (vm_compute; reflexivity).
  assert (length ["wind turbine"; "sunset"] ≤ 50)%nat as H2 by (simpl; lia).
  split; [exact H1|]. split; [exact H2|].
  exact (generated_keywords_survive_reload _ _ ["ruzgar turbini"] 50 H1 H2).
Defined.

(** X8: whatever the translation service does, [api_translate_kw]
    returns as many entries as it was given. *)
Theorem translate_list_length api_translate kws :
  length (api_translate_kw api_translate kws) = length kws.
Proof. apply api_translate_kw_length. Qed.

(** X9: when the request succeeds, position [i] of the result is the
    trimmed [i]-th part of the response if there is one, and otherwise
    the source word at [i] minus the number of parts. *)
Theorem translate_list_positions api_translate kws raw i :
  api_translate (join ", " (take_to 50 kws)) = Ok raw →
  (i < length kws)%nat →
  api_translate_kw api_translate kws !! i
  = if decide (i < length (split ","%char raw))%nat
    then strip <$> split ","%char raw !! i
    else kws !! (i - length (split ","%char raw))%nat.
Proof.
  intros Hraw Hi. case_decide.
  - by apply api_translate_kw_part.
  - apply api_translate_kw_fill; [done|done|lia].
Qed.

Lemma translate_list_positions_witness :
  (fun _ : string => Ok " kirmizi , yesil") (join ", " (take_to 50 ["red"; "green"; "blue"]))
  = Ok " kirmizi , yesil" ∧
  (2 < length ["red"; "green"; "blue"])%nat ∧
  api_translate_kw (fun _ => Ok " kirmizi , yesil") ["red"; "green"; "blue"] !! 2%nat
  = if decide (2 < length (split ","%char " kirmizi , yesil"))%nat
    then strip <$> split ","%char " kirmizi , yesil" !! 2%nat
    else ["red"; "green"; "blue"] !! (2 - length (split ","%char " kirmizi , yesil"))%nat.
Proof.
  assert (2 < length ["red"; "green"; "blue"])%nat as H2 by (simpl; lia).
  split; [reflexivity|]. split; [exact H2|].
  exact (translate_list_positions (fun _ => Ok " kirmizi , yesil")
           ["red"; "green"; "blue"] " kirmizi , yesil" 2 eq_refl H2).
Defined.

(** X10: the apply button of the window and the mapping of the
    generation run replace the same terms by the same replacements. *)
Theorem apply_istock_agrees d entries :
  apply_istock d entries = map_istock d entries.
Proof. apply apply_istock_map_istock. Qed.

(** X11: after a pair is added to the vocabulary, a keyword is mapped to
    the trimmed replacement when it equals the general term up to case
    and surrounding whitespace, and is mapped as before otherwise. *)
Theorem vocabulary_add_then_map d general istock k :
  strip general ≠ EmptyString → strip istock ≠ EmptyString →
  map_istock (istock_add d general istock) [k]
  = if decide (lower (strip k) = lower (strip general))
    then [strip istock] else map_istock d [k].
Proof. apply map_istock_after_add. Qed.

Lemma vocabulary_add_then_map_witness :
  strip " Dog " ≠ EmptyString ∧ strip "Dog (domestic) " ≠ EmptyString ∧
  map_istock (istock_add ∅ " Dog " "Dog (domestic) ") ["DOG"]
  = if decide (lower (strip "DOG") = lower (strip " Dog "))
    then [strip "Dog (domestic) "] else map_istock ∅ ["DOG"].
Proof.
  assert (strip " Dog " ≠ EmptyString) as H1 by (vm_compute; discriminate).
  assert (strip "Dog (domestic) " ≠ EmptyString) as H2
    by (vm_compute; discriminate).
  split; [exact H1|]. split; [exact H2|].
  exact (vocabulary_add_then_map ∅ " Dog " "Dog (domestic) " "DOG" H1 H2).
Defined.

(** X12: adding a general term that the vocabulary did not have and
    deleting it again by its listed key gives the vocabulary back; and
    after a deletion the keywords of that key are left as they are. *)
Theorem vocabulary_add_then_delete d general istock :
  d !! lower (strip general) = None →
  istock_del (istock_add d general istock) (lower (strip general)) = d ∧
  ∀ k, strip (lower k) = lower (strip general) →
       map_istock (istock_del (istock_add d general istock)
                              (lower (strip general))) [k] = [k].
Proof.
  intros Hfresh. split; [by apply istock_del_add|].
  intros k Hk. apply map_istock_after_del. by rewrite lower_idem.
Qed.

Lemma vocabulary_add_then_delete_witness :
  (∅ : gmap string string) !! lower (strip " Dog ") = None ∧
  istock_del (istock_add ∅ " Dog " "Dog (domestic)") (lower (strip " Dog "))
  = ∅.
Proof.
  assert ((∅ : gmap string string) !! lower (strip " Dog ") = None) as H
    by apply lookup_empty.
  split; [exact H|].
  exact (proj1 (vocabulary_add_then_delete ∅ " Dog " "Dog (domestic)" H)).
Defined.

(** X13: a thumbnail request that succeeded, when repeated, returns the
    same canvas and leaves the cache as it is. *)
Theorem thumbnail_repeat_is_cached wd ch file_path w h canvas ch' :
  get_thumb wd ch file_path w h = Ok (canvas, ch') →
  get_thumb wd ch' file_path w h = Ok (canvas, ch').
Proof. apply get_thumb_repeat. Qed.

Lemma thumbnail_repeat_is_cached_witness :
  ∃ canvas ch',
    get_thumb white_pixel ∅ "/f/a.jpg" 244 152 = Ok (canvas, ch') ∧
    get_thumb white_pixel ch' "/f/a.jpg" 244 152 = Ok (canvas, ch').
Proof.
  destruct (get_thumb white_pixel ∅ "/f/a.jpg" 244 152)
    as [[canvas ch']|] eqn:Hg; [|vm_compute in Hg; discriminate].
  exists canvas, ch'. split; [reflexivity|].
  exact (thumbnail_repeat_is_cached _ _ _ _ _ _ _ Hg).
Defined.

(** X14: a thumbnail request never removes or replaces a cache entry:
    the cache afterwards extends the cache before, and differs from it
    at most under the key of the request. *)
Theorem thumbnail_cache_only_grows wd ch file_path w h canvas ch' :
  get_thumb wd ch file_path w h = Ok (canvas, ch') →
  ch ⊆ ch' ∧
  ∀ key, key ≠ cache_key wd file_path w h → ch' !! key = ch !! key.
Proof. apply get_thumb_cache_grows. Qed.

Lemma thumbnail_cache_only_grows_witness :
  ∃ canvas ch',
    get_thumb white_pixel ∅ "/f/a.jpg" 244 152 = Ok (canvas, ch') ∧
    (∅ : gmap string image) ⊆ ch'.
Proof.
  destruct (get_thumb white_pixel ∅ "/f/a.jpg" 244 152)
    as [[canvas ch']|] eqn:Hg; [|vm_compute in Hg; discriminate].
  exists canvas, ch'. split; [reflexivity|].
  exact (proj1 (thumbnail_cache_only_grows _ _ _ _ _ _ _ Hg)).
Defined.

(** X15: a picture that is no larger than the box is pasted unscaled
    and centred: the canvas has the requested size, the margins on
    opposite sides differ by at most one, and every position outside
    the picture has the background colour. *)
Theorem thumbnail_small_image_centred wd ch file_path w h src :
  ch !! cache_key wd file_path w h = None →
  ¬ is_video file_path →
  image_open wd file_path = Ok src →
  cache_writable wd (cache_key wd file_path w h) = true →
  (width src ≤ w)%Z → (height src ≤ h)%Z →
  ∃ canvas dx dy,
    get_thumb wd ch file_path w h
    = Ok (canvas, <[cache_key wd file_path w h := canvas]> ch) ∧
    width canvas = w ∧ height canvas = h ∧
    (0 ≤ dx ≤ w - width src - dx ∧ w - width src - dx ≤ dx + 1)%Z ∧
    (0 ≤ dy ≤ h - height src - dy ∧ h - height src - dy ≤ dy + 1)%Z ∧
    ∀ x y,
      pixel canvas x y
      = if ((dx <=? x) && (x <? dx + width src) &&
            (dy <=? y) && (y <? dy + height src))%Z
        then pixel src (x - dx) (y - dy) else BG.
Proof.
  intros Hmiss Hv Hopen Hwr Hw Hh.
  pose proof (image_sized src) as [Hsw Hsh].
  destruct (Image_new_sized w h BG) as [ground Hnew]; [lia|lia|].
  pose proof (Image_new_Ok _ _ _ _ Hnew) as (Hgw & Hgh & Hgp).
  exists (paste ground src ((w - width src) / 2) ((h - height src) / 2)),
         ((w - width src) / 2)%Z, ((h - height src) / 2)%Z.
  split.
  - unfold get_thumb, is_video in *. rewrite Hmiss.
    rewrite bool_decide_eq_false_2 by exact Hv. rewrite Hopen.
    cbn [mbind result_bind]. rewrite thumbnail_fits by done.
    cbn [mbind result_bind]. rewrite Hnew. cbn [mbind result_bind].
    by rewrite Hwr.
  - split; [done|]. split; [done|].
    pose proof (centred_margins w (width src) Hw).
    pose proof (centred_margins h (height src) Hh).
    split; [lia|]. split; [lia|].
    intros x y. cbn [paste pixel]. by rewrite Hgp.
Qed.

Lemma thumbnail_small_image_centred_witness :
  ∃ canvas dx dy,
    get_thumb white_pixel ∅ "/f/a.jpg" 244 152
    = Ok (canvas, <[cache_key white_pixel "/f/a.jpg" 244 152 := canvas]> ∅) ∧
    width canvas = 244%Z ∧ height canvas = 152%Z ∧
    (0 ≤ dx ≤ 244 - 1 - dx ∧ 244 - 1 - dx ≤ dx + 1)%Z ∧
    (0 ≤ dy ≤ 152 - 1 - dy ∧ 152 - 1 - dy ≤ dy + 1)%Z ∧
    ∀ x y,
      pixel canvas x y
      = if ((dx <=? x) && (x <? dx + 1) && (dy <=? y) && (y <? dy + 1))%Z
        then "#ffffff" else BG.
Proof.
  refine (thumbnail_small_image_centred white_pixel ∅ "/f/a.jpg" 244 152
            white_dot _ _ _ _ _ _).
  - apply lookup_empty.
  - apply (bool_decide_eq_false_1 (is_video _)). vm_compute. reflexivity.
  - reflexivity.
  - reflexivity.
  - simpl. lia.
  - simpl. lia.
Defined.

(** X16: [api_metadata] hands to [json.loads] exactly the object of the
    response when the text before it has no opening brace and the text
    after it no closing brace. *)
Theorem metadata_object_extracted {J} (json_loads : string → result J)
    pre body post :
  contains "{"%char pre = false → contains "}"%char post = false →
  api_metadata json_loads
    (Ok (pre +:+ String "{" (body +:+ String "}" post)))
  = json_loads (String "{" (body +:+ String "}" EmptyString)).
Proof.
  intros Hpre Hpost. unfold api_metadata. cbn [mbind result_bind].
  by rewrite search_braces_wrapped.
Qed.

Lemma metadata_object_extracted_witness :
  contains "{"%char "Here it is: " = false ∧
  contains "}"%char " (done)" = false ∧
  api_metadata loads_text
    (Ok ("Here it is: " +:+ String "{" ("a: {b}" +:+ String "}" " (done)")))
  = loads_text (String "{" ("a: {b}" +:+ String "}" EmptyString)).
Proof.
  split; [reflexivity|]. split; [reflexivity|].
  exact (metadata_object_extracted loads_text "Here it is: " "a: {b}" " (done)"
           eq_refl eq_refl).
Defined.

(** X17: [api_metadata] raises [ValueError] on a response without an
    opening brace or without a closing brace. *)
Theorem metadata_rejects_without_braces {J} (json_loads : string → result J)
    raw :
  contains "{"%char raw = false ∨ contains "}"%char raw = false →
  api_metadata json_loads (Ok raw) = Raise ValueError.
Proof.
  intros H. unfold api_metadata. cbn [mbind result_bind].
  by rewrite search_braces_None.
Qed.

Lemma metadata_rejects_without_braces_witness :
  (contains "{"%char "title: Sunset" = false ∨
   contains "}"%char "title: Sunset" = false) ∧
  api_metadata loads_text (Ok "title: Sunset") = Raise ValueError.
Proof.
  assert (contains "{"%char "title: Sunset" = false ∨
          contains "}"%char "title: Sunset" = false) as H by (left; reflexivity).
  split; [exact H|]. exact (metadata_rejects_without_braces loads_text _ H).
Defined.

(** X18: what [api_metadata] returns is what [json.loads] makes of the
    part of the response from its first opening brace to its last
    closing brace. *)
Theorem metadata_parses_brace_span {J} (json_loads : string → result J)
    response j :
  api_metadata json_loads response = Ok j →
  ∃ pre body post,
    response
    = Ok (pre +:+ String "{" (body +:+ String "}" EmptyString) +:+ post) ∧
    json_loads (String "{" (body +:+ String "}" EmptyString)) = Ok j ∧
    contains "{"%char pre = false ∧ contains "}"%char post = false.
Proof.
  unfold api_metadata. intros (raw & -> & Hm)%bind_Ok.
  destruct (search_braces raw) as [m|] eqn:Hs; [|discriminate].
  apply search_braces_Some in Hs as (pre & body & post & -> & -> & Hpre & Hpost).
  exists pre, body, post. done.
Qed.

Lemma metadata_parses_brace_span_witness :
  api_metadata loads_text (Ok "x {a} y") = Ok "{a}" ∧
  ∃ pre body post,
    Ok "x {a} y"
    = Ok (pre +:+ String "{" (body +:+ String "}" EmptyString) +:+ post) ∧
    loads_text (String "{" (body +:+ String "}" EmptyString)) = Ok "{a}" ∧
    contains "{"%char pre = false ∧ contains "}"%char post = false.
Proof.
  assert (api_metadata loads_text (Ok "x {a} y") = Ok "{a}") as H
    by reflexivity.
  split; [exact H|]. exact (metadata_parses_brace_span loads_text _ _ H).
Defined.

(** X19: the list is scrolled against the sign of the wheel delta and by
    at least one unit; a delta of [120 * n] scrolls by [- n] units. *)
Theorem scroll_against_wheel event :
  ((0 < event_delta event → scroll_delta event ≤ -1) ∧
   (event_delta event < 0 → 1 ≤ scroll_delta event) ∧
   (∀ n, event_delta event = 120 * n → n ≠ 0 → scroll_delta event = - n))%Z.
Proof. apply scroll_delta_against. Qed.

(** X20: nothing is scrolled exactly when the event has no wheel delta
    and is neither button 4 nor button 5. *)
Theorem scroll_nothing_iff event :
  scroll_delta event = 0%Z ↔
  event_delta event = 0%Z ∧ event_num event ≠ 4%Z ∧ event_num event ≠ 5%Z.
Proof. apply scroll_delta_zero. Qed.

(** X21: the name shown in the list has at most 28 characters: a name of
    up to 28 characters is shown as it is, a longer one as its first 25
    characters and three dots. *)
Theorem display_name_at_most_28 name :
  (String.length (display_name name) ≤ 28)%nat ∧
  ((String.length name ≤ 28)%nat → display_name name = name) ∧
  ((28 < String.length name)%nat →
   ∃ rest, display_name name = str_take 25 name +:+ "..." ∧
           name = str_take 25 name +:+ rest).
Proof. apply display_name_bound. Qed.

(** X22: saving the same record a second time leaves the disk as the
    first save left it, for a record that conforms to the schema with
    no column longer than the field size limit, in a folder whose table
    loads as a table of records. *)
Theorem save_twice_is_save_once (fs : gmap string string) folder r :
  store_ok fs folder → conforms r → fits r →
  save_db (fst (save_db fs folder r)) folder r = save_db fs folder r.
Proof. apply save_db_twice. Qed.

Lemma save_twice_is_save_once_witness :
  store_ok ∅ "/f" ∧ conforms record_A ∧ fits record_A ∧
  save_db (fst (save_db ∅ "/f" record_A)) "/f" record_A
  = save_db ∅ "/f" record_A.
Proof.
  split; [apply store_ok_empty|]. split; [apply record_A_conforms|].
  split; [apply record_A_fits|].
  exact (save_twice_is_save_once ∅ "/f" record_A
           (store_ok_empty "/f") record_A_conforms record_A_fits).
Defined.



(** X24: a record without the [file_path] column is not saved: [save_db]
    raises and the disk is left as it was. *)
Theorem save_without_file_path_changes_nothing
    (fs : gmap string string) folder r :
  dict_get "file_path" (cells r) = None →
  fst (save_db fs folder r) = fs ∧
  ∃ e, snd (save_db fs folder r) = Raise e.
Proof. apply save_db_no_file_path. Qed.

Lemma save_without_file_path_changes_nothing_witness :
  dict_get "file_path" (cells record_without_path) = None ∧
  fst (save_db ∅ "/f" record_without_path) = ∅ ∧
  ∃ e, snd (save_db ∅ "/f" record_without_path) = Raise e.
Proof.
  split; [reflexivity|].
  exact (save_without_file_path_changes_nothing ∅ "/f" record_without_path
           eq_refl).
Defined.



(** X26: the table that [save_db] writes, the header and then one row
    for each record through [DictWriter], is the table that [load_db]
    loads from it: the same paths in the same order, each with an equal
    record, whatever the columns hold within the field size limit,
    commas, quotes, carriage returns and line feeds included. *)
Theorem written_table_loads_back (fs : gmap string string) folder
    (db : table) :
  keyed db →
  Forall (fun kr => conforms (snd kr)) db →
  Forall (fun kr => fits (snd kr)) db →
  ∃ text db',
    write_rows header_text (dict_values db) = (text, Ok tt) ∧
    load_db (<[csv_path folder := text]> fs) folder = Ok db' ∧
    dict_keys db' = dict_keys db ∧
    ∀ k, option_Forall2 row_equiv (dict_get k db') (dict_get k db).
Proof. apply written_table_loads. Qed.

Lemma written_table_loads_back_witness :
  keyed quoted_table ∧
  Forall (fun kr => conforms (snd kr)) quoted_table ∧
  Forall (fun kr => fits (snd kr)) quoted_table ∧
  ∃ text db',
    write_rows header_text (dict_values quoted_table) = (text, Ok tt) ∧
    load_db (<[csv_path "/f" := text]> ∅) "/f" = Ok db' ∧
    dict_keys db' = dict_keys quoted_table ∧
    ∀ k, option_Forall2 row_equiv (dict_get k db') (dict_get k quoted_table).
Proof.
  assert (keyed quoted_table) as Hk.
  { split.
    - apply (bool_decide_eq_true_1 (NoDup _)). vm_compute. reflexivity.
    - repeat constructor. }
  assert (Forall (fun kr => conforms (snd kr)) quoted_table) as Hc.
  { apply (bool_decide_eq_true_1 (Forall _ _)). vm_compute. reflexivity. }
  assert (Forall (fun kr => fits (snd kr)) quoted_table) as Hf.
  { apply (bool_decide_eq_true_1 (Forall _ _)). vm_compute. reflexivity. }
  split; [exact Hk|]. split; [exact Hc|]. split; [exact Hf|].
  exact (written_table_loads_back ∅ "/f" quoted_table Hk Hc Hf).
Defined.

(** The table of the worked case, computed: the title with its quotes
    and its line break is read back as it was written. *)
Example quoted_table_loads :
  ∃ text,
    write_rows header_text (dict_values quoted_table) = (text, Ok tt) ∧
    load_db (<[csv_path "/f" := text]> ∅) "/f" = Ok quoted_table.
Proof. eexists. split; vm_compute; reflexivity. Qed.

(** X27: whatever table [load_db] loads, no path occurs twice in it and
    every row is stored under the value of its own [file_path] column. *)
Theorem load_rows_under_their_paths (fs : gmap string string) folder db :
  load_db fs folder = Ok db → keyed db.
Proof. apply load_db_keyed. Qed.

Lemma load_rows_under_their_paths_witness :
  load_db (fst (save_db ∅ "/f" record_A)) "/f"
  = Ok [(Some "/f/1.jpg", record_A)] ∧
  keyed [(Some "/f/1.jpg", record_A)].
Proof.
  assert (load_db (fst (save_db ∅ "/f" record_A)) "/f"
          = Ok [(Some "/f/1.jpg", record_A)]) as H by (vm_compute; reflexivity).
  split; [exact H|]. exact (load_rows_under_their_paths _ _ _ H).
Defined.
